(** * PyMW: master-worker task scheduling, verified against its specification

    A shallow embedding of [pymw/pymw.py] (the synchronised list, the task
    object, the scheduler hand-shake and the Master facade), of
    [pymw/interfaces/condor.py] (the Condor backend's [execute_task] and its
    pickle helpers) and of the genetic operators of
    [examples/genetic_alg.py].

    Conventions of the embedding.
    - A Python method is a computation in the monad [M S], a state
      transformer over the objects it mutates whose result is an [outcome]:
      it returns, raises, or blocks on a lock, semaphore or event.
    - Task objects live in a heap and are named by references, since the
      registry, the dispatch queue, the backend and the caller all hold the
      same object.
    - A file is modelled by what it holds: the pickle of a Python object, or
      characters that are not a pickle, which the unpickler refuses.
    - Concurrent callers of the synchronised list are threads that each
      execute one statement of a method at a time, in any order.
    - Logging and the time bookkeeping of a task are left out: they never
      influence control flow. *)

From stdpp Require Import base option list gmap strings pretty.

Set Warnings "-register-all".

Open Scope string_scope.
Open Scope list_scope.
Open Scope nat_scope.
Open Scope stdpp_scope.

(** ** Python values, exceptions and the method monad *)

Module Py.

(** The objects that are pickled in and out of tasks. *)
Inductive value :=
| VNone
| VInt (n : Z)
| VStr (s : string)
| VList (l : list value).

(** Exception objects, by class. [Exception_] is the built-in base class
    instantiated directly, as [condor.py] does. [ThreadError] is
    [thread.error], raised when an unlocked lock is released. [EOFError] and
    [UnpicklingError] are what [cPickle] raises on a file that is not a
    pickle; neither is a subclass of [OSError] or [IOError]. *)
Inductive exn :=
| TaskException (param : string)
| InterfaceException (param details : string)
| Exception_ (msg : string)
| TypeError (msg : string)
| AttributeError (msg : string)
| IndexError (msg : string)
| IOError (msg : string)
| OSError (msg : string)
| ThreadError (msg : string)
| EOFError (msg : string)
| UnpicklingError (msg : string).

Inductive exn_class :=
| CTaskException | CInterfaceException | CException | CTypeError
| CAttributeError | CIndexError | CIOError | COSError | CThreadError
| CEOFError | CUnpicklingError.

Definition class_of (e : exn) : exn_class :=
  match e with
  | TaskException _ => CTaskException
  | InterfaceException _ _ => CInterfaceException
  | Exception_ _ => CException
  | TypeError _ => CTypeError
  | AttributeError _ => CAttributeError
  | IndexError _ => CIndexError
  | IOError _ => CIOError
  | OSError _ => COSError
  | ThreadError _ => CThreadError
  | EOFError _ => CEOFError
  | UnpicklingError _ => CUnpicklingError
  end.

(** How a call ends. [Blocks]: the calling thread waits on a primitive that
    no step of its own will ever signal. [Dangling]: a reference names no
    object of the heap, which no Python execution reaches. *)
Inductive outcome (A : Type) :=
| Return (a : A)
| Raise (e : exn)
| Blocks
| Dangling.
Arguments Return {A} a.
Arguments Raise {A} e.
Arguments Blocks {A}.
Arguments Dangling {A}.

(** A method acting on a state of type [S]. The state it leaves behind is
    kept also when it raises or blocks. *)
Definition M (S A : Type) : Type := S → S * outcome A.

Definition ret {S A} (a : A) : M S A := λ s, (s, Return a).
Definition raise {S A} (e : exn) : M S A := λ s, (s, Raise e).
Definition block {S A} : M S A := λ s, (s, Blocks).
Definition get {S} : M S S := λ s, (s, Return s).
Definition put {S} (s : S) : M S unit := λ _, (s, Return tt).
Definition modify {S} (f : S → S) : M S unit := λ s, (f s, Return tt).

Definition bind {S A B} (c : M S A) (k : A → M S B) : M S B :=
  λ s, match c s with
       | (s', Return a) => k a s'
       | (s', Raise e) => (s', Raise e)
       | (s', Blocks) => (s', Blocks)
       | (s', Dangling) => (s', Dangling)
       end.

(** [try: body / except: handler]; a handler for some classes only raises
    the other exceptions again. *)
Definition try_except {S A} (body : M S A) (handler : exn → M S A) : M S A :=
  λ s, match body s with
       | (s', Raise e) => handler e s'
       | r => r
       end.

(** [try: body / finally: fin]: [fin] runs whether [body] returned or
    raised, and the outcome of [body] survives unless [fin] itself fails. *)
Definition try_finally {S A} (body : M S A) (fin : M S unit) : M S A :=
  λ s, match body s with
       | (s', Blocks) => (s', Blocks)
       | (s', Dangling) => (s', Dangling)
       | (s', r) =>
           match fin s' with
           | (s'', Return _) => (s'', r)
           | (s'', Raise e) => (s'', Raise e)
           | (s'', Blocks) => (s'', Blocks)
           | (s'', Dangling) => (s'', Dangling)
           end
       end.

(** A method of one object run inside a larger state: [proj] finds the
    object and [inj] puts it back. *)
Definition zoom {S T A} (proj : S → T) (inj : T → S → S) (c : M T A) : M S A :=
  λ s, let '(t', r) := c (proj s) in (inj t' s, r).

(** A method of one object run inside a state made of two. *)
Definition on_fst {S T A} (c : M S A) : M (S * T) A :=
  λ st, let '(s', r) := c st.1 in ((s', st.2), r).
Definition on_snd {S T A} (c : M T A) : M (S * T) A :=
  λ st, let '(t', r) := c st.2 in ((st.1, t'), r).

End Py.

Export Py.

Declare Scope py_scope.
Delimit Scope py_scope with py.
Notation "x <- c ;; k" := (bind c (λ x, k))
  (at level 100, c at next level, right associativity) : py_scope.
Notation "c ;; k" := (bind c (λ _, k))
  (at level 100, right associativity) : py_scope.
Open Scope py_scope.

(** ** [_SyncList]: a list with a lock and a counting semaphore *)

Module SyncList.

Section Object.
Context {A : Type}.

(** [self._lock] is [true] while some thread holds it; [self._sem] is the
    counter of the semaphore. *)
Record _SyncList := mk {
  _lock : bool;
  _sem : nat;
  _list : list A
}.

Definition __init__ : _SyncList :=
  {| _lock := false; _sem := 0; _list := [] |}.

(** *** The statements of the methods, one primitive each *)

(** [self._lock.acquire()] *)
Definition lock_acquire : M _SyncList unit :=
  λ q, if _lock q then (q, Blocks)
       else ({| _lock := true; _sem := _sem q; _list := _list q |}, Return tt).

(** [self._lock.release()] *)
Definition lock_release : M _SyncList unit :=
  λ q, if _lock q
       then ({| _lock := false; _sem := _sem q; _list := _list q |}, Return tt)
       else (q, Raise (ThreadError "release unlocked lock")).

(** [self._sem.release()] *)
Definition sem_release : M _SyncList unit :=
  modify (λ q, {| _lock := _lock q; _sem := S (_sem q); _list := _list q |}).

(** [self._sem.acquire(blocking=True)] *)
Definition sem_acquire : M _SyncList unit :=
  λ q, match _sem q with
       | O => (q, Blocks)
       | S n => ({| _lock := _lock q; _sem := n; _list := _list q |}, Return tt)
       end.

(** [self._list.append(item)] *)
Definition list_append (item : A) : M _SyncList unit :=
  modify (λ q, {| _lock := _lock q; _sem := _sem q; _list := _list q ++ [item] |}).

(** [list.pop()] on a plain list: the last element and the rest, or nothing
    when the list is empty (Python raises [IndexError]). *)
Fixpoint pop_last (l : list A) : option (A * list A) :=
  match l with
  | [] => None
  | x :: l' =>
      match pop_last l' with
      | None => Some (x, [])
      | Some (y, r) => Some (y, x :: r)
      end
  end.

(** [self._list.pop()] *)
Definition list_pop : M _SyncList A :=
  λ q, match pop_last (_list q) with
       | Some (x, r) => ({| _lock := _lock q; _sem := _sem q; _list := r |}, Return x)
       | None => (q, Raise (IndexError "pop from empty list"))
       end.

(** [len(self._list)] *)
Definition list_len : M _SyncList nat :=
  q <- get ;; ret (length (_list q)).

(** [self._list.count(item)]; [eqb] stands for Python's [==] on the items. *)
Definition list_count (eqb : A → A → bool) (item : A) : M _SyncList nat :=
  q <- get ;; ret (length (filter (λ x, eqb x item = true) (_list q))).

(** *** The methods *)

Definition __len__ : M _SyncList nat :=
  lock_acquire ;;
  l_len <- list_len ;;
  lock_release ;;
  ret l_len.

Definition append (item : A) : M _SyncList unit :=
  lock_acquire ;;
  list_append item ;;
  sem_release ;;
  lock_release.

(** The result is [Some item] from the [try] body and [None] from the
    [except] branch, which returns Python's [None]. *)
Definition wait_pop : M _SyncList (option A) :=
  sem_acquire ;;
  lock_acquire ;;
  try_finally
    (try_except (item <- list_pop ;; ret (Some item)) (λ _, ret None))
    lock_release.

Definition contains (eqb : A → A → bool) (item : A) : M _SyncList bool :=
  lock_acquire ;;
  n <- list_count eqb item ;;
  lock_release ;;
  if decide (n ≠ 0) then ret true else ret false.

(** [_SyncListIter.next] at position [pos]: it asks [len(self._list_obj)],
    which takes the lock, and then reads [self._list_obj._list[self._pos]]
    directly. [None] stands for [StopIteration]. *)
Definition iter_next (pos : nat) : M _SyncList (option A) :=
  n <- __len__ ;;
  if decide (n ≤ pos) then ret None
  else
    q <- get ;;
    match _list q !! pos with
    | Some x => ret (Some x)
    | None => raise (IndexError "list index out of range")
    end.

(** *** Two client loops

    [for item in items: q.append(item)] and
    [[q.wait_pop() for i in range(n)]]. *)
Fixpoint append_all (items : list A) : M _SyncList unit :=
  match items with
  | [] => ret tt
  | item :: items' => append item ;; append_all items'
  end.

Fixpoint wait_pop_n (n : nat) : M _SyncList (list (option A)) :=
  match n with
  | O => ret []
  | S n' => r <- wait_pop ;; rest <- wait_pop_n n' ;; ret (r :: rest)
  end.

(** [[item for item in q]]: the items a [for] loop over the object visits
    from position [pos] on. [next] is called until it raises
    [StopIteration]; [fuel] bounds the number of calls. *)
Fixpoint iterate (fuel pos : nat) : M _SyncList (list A) :=
  match fuel with
  | O => ret []
  | S fuel' =>
      o <- iter_next pos ;;
      match o with
      | None => ret []
      | Some item => rest <- iterate fuel' (S pos) ;; ret (item :: rest)
      end
  end.

(** *** One caller at a time

    The calls a single thread can make, and the object they leave behind,
    whether they return, raise or block. *)
Inductive method :=
| Append (item : A)
| Wait_pop
| Len
| Contains (eqb : A → A → bool) (item : A).

Definition invoke (m : method) (q : _SyncList) : _SyncList :=
  match m with
  | Append item => (append item q).1
  | Wait_pop => (wait_pop q).1
  | Len => (__len__ q).1
  | Contains eqb item => (contains eqb item q).1
  end.

Fixpoint invoke_all (ms : list method) (q : _SyncList) : _SyncList :=
  match ms with
  | [] => q
  | m :: ms' => invoke_all ms' (invoke m q)
  end.

(** *** Threads calling the methods concurrently

    Each thread is about to execute one statement of one method; a step of
    the system lets one thread execute that statement, if it can. *)
Inductive pc :=
| Idle
| Append_lock (item : A)      (* append: self._lock.acquire() *)
| Append_list (item : A)      (* append: self._list.append(item) *)
| Append_sem                  (* append: self._sem.release() *)
| Append_unlock               (* append: self._lock.release() *)
| Pop_sem                     (* wait_pop: self._sem.acquire(blocking=True) *)
| Pop_lock                    (* wait_pop: self._lock.acquire() *)
| Pop_list                    (* wait_pop: item = self._list.pop() *)
| Pop_unlock (r : option A)   (* wait_pop: finally, before return r *)
| Len_lock                    (* __len__: self._lock.acquire() *)
| Len_read                    (* __len__: l_len = len(self._list) *)
| Len_unlock (l_len : nat)    (* __len__: self._lock.release() *)
| Contains_lock (eqb : A → A → bool) (item : A)
                              (* contains: self._lock.acquire() *)
| Contains_count (eqb : A → A → bool) (item : A)
                              (* contains: n = self._list.count(item) *)
| Contains_unlock (n : nat)   (* contains: self._lock.release() *)
| Crashed (e : exn).          (* an exception left the method *)

(** The shared object, the threads, and two histories: the arguments of the
    calls to [append] made so far and the results [wait_pop] has returned. *)
Record system := mk_system {
  obj : _SyncList;
  pcs : list pc;
  appended : list A;
  returned : list (option A)
}.

Definition boot (threads : nat) : system :=
  {| obj := __init__; pcs := replicate threads Idle; appended := []; returned := [] |}.

(** One statement of a thread: the next position of the thread, the object
    after the statement, and the result handed to the caller when the
    statement ends a call to [wait_pop]. [None]: the thread cannot move (it
    is blocked, idle or dead). *)
Definition advance (p : pc) (q : _SyncList) : option (pc * _SyncList * option (option A)) :=
  match p with
  | Idle => None
  | Append_lock item =>
      match lock_acquire q with
      | (q', Return _) => Some (Append_list item, q', None)
      | _ => None
      end
  | Append_list item =>
      match list_append item q with
      | (q', Return _) => Some (Append_sem, q', None)
      | _ => None
      end
  | Append_sem =>
      match sem_release q with
      | (q', Return _) => Some (Append_unlock, q', None)
      | _ => None
      end
  | Append_unlock =>
      match lock_release q with
      | (q', Return _) => Some (Idle, q', None)
      | (q', Raise e) => Some (Crashed e, q', None)
      | _ => None
      end
  | Pop_sem =>
      match sem_acquire q with
      | (q', Return _) => Some (Pop_lock, q', None)
      | _ => None
      end
  | Pop_lock =>
      match lock_acquire q with
      | (q', Return _) => Some (Pop_list, q', None)
      | _ => None
      end
  | Pop_list =>
      match list_pop q with
      | (q', Return item) => Some (Pop_unlock (Some item), q', None)
      | (q', Raise _) => Some (Pop_unlock None, q', None)
      | _ => None
      end
  | Pop_unlock r =>
      match lock_release q with
      | (q', Return _) => Some (Idle, q', Some r)
      | (q', Raise e) => Some (Crashed e, q', None)
      | _ => None
      end
  | Len_lock =>
      match lock_acquire q with
      | (q', Return _) => Some (Len_read, q', None)
      | _ => None
      end
  | Len_read =>
      match list_len q with
      | (q', Return l_len) => Some (Len_unlock l_len, q', None)
      | _ => None
      end
  | Len_unlock _ =>
      match lock_release q with
      | (q', Return _) => Some (Idle, q', None)
      | (q', Raise e) => Some (Crashed e, q', None)
      | _ => None
      end
  | Contains_lock eqb item =>
      match lock_acquire q with
      | (q', Return _) => Some (Contains_count eqb item, q', None)
      | _ => None
      end
  | Contains_count eqb item =>
      match list_count eqb item q with
      | (q', Return n) => Some (Contains_unlock n, q', None)
      | _ => None
      end
  | Contains_unlock _ =>
      match lock_release q with
      | (q', Return _) => Some (Idle, q', None)
      | (q', Raise e) => Some (Crashed e, q', None)
      | _ => None
      end
  | Crashed _ => None
  end.

Inductive action :=
| Call_append (t : nat) (item : A)   (* idle thread t calls append(item) *)
| Call_wait_pop (t : nat)            (* idle thread t calls wait_pop() *)
| Call_len (t : nat)                 (* idle thread t calls len() *)
| Call_contains (t : nat) (eqb : A → A → bool) (item : A)
                                     (* idle thread t calls contains(item) *)
| Step (t : nat).                    (* thread t executes its statement *)

(** Where a call starts, and what it adds to the history of appended
    items. *)
Definition entry (a : action) : option (nat * pc * list A) :=
  match a with
  | Call_append t item => Some (t, Append_lock item, [item])
  | Call_wait_pop t => Some (t, Pop_sem, [])
  | Call_len t => Some (t, Len_lock, [])
  | Call_contains t eqb item => Some (t, Contains_lock eqb item, [])
  | Step _ => None
  end.

Definition exec (a : action) (s : system) : option system :=
  match a with
  | Step t =>
      match pcs s !! t with
      | Some p =>
          match advance p (obj s) with
          | Some (p', q', res) =>
              Some {| obj := q'; pcs := <[t := p']> (pcs s);
                      appended := appended s;
                      returned := match res with
                                  | Some r => returned s ++ [r]
                                  | None => returned s
                                  end |}
          | None => None
          end
      | None => None
      end
  | _ =>
      match entry a with
      | Some (t, p', items) =>
          match pcs s !! t with
          | Some Idle =>
              Some {| obj := obj s; pcs := <[t := p']> (pcs s);
                      appended := appended s ++ items; returned := returned s |}
          | _ => None
          end
      | None => None
      end
  end.

(** A schedule is a list of actions; it runs as far as every action of it is
    enabled. *)
Fixpoint run (sched : list action) (s : system) : option system :=
  match sched with
  | [] => Some s
  | a :: sched' =>
      match exec a s with
      | Some s' => run sched' s'
      | None => None
      end
  end.

(** The schedules in which thread [t] runs a whole call without
    interruption. *)
Definition solo_append (t : nat) (item : A) : list action :=
  [Call_append t item; Step t; Step t; Step t; Step t].
Definition solo_wait_pop (t : nat) : list action :=
  [Call_wait_pop t; Step t; Step t; Step t; Step t].

(** What a thread holds of the count of the semaphore: a permit taken from
    the semaphore and not yet spent on a pop, or an item put on the list and
    not yet signalled. *)
Definition credit (p : pc) : nat :=
  match p with
  | Pop_lock | Pop_list | Append_sem => 1
  | _ => 0
  end.

(** Whether a thread is between [self._lock.acquire()] and
    [self._lock.release()]. *)
Definition holds_lock (p : pc) : nat :=
  match p with
  | Append_list _ | Append_sem | Append_unlock | Pop_list | Pop_unlock _
  | Len_read | Len_unlock _ | Contains_count _ _ | Contains_unlock _ => 1
  | _ => 0
  end.

(** The item a thread has in hand: on its way from the caller of [append]
    to the list, or from the list to the caller of [wait_pop]. *)
Definition in_hand (p : pc) : list A :=
  match p with
  | Append_lock item | Append_list item => [item]
  | Pop_unlock (Some item) => [item]
  | _ => []
  end.

(** What a thread carries is sound: the pending result of [wait_pop] is an
    item rather than the [None] of the [except] branch, and no exception has
    left a method. *)
Definition sound (p : pc) : Prop :=
  match p with
  | Pop_unlock r => is_Some r
  | Crashed _ => False
  | _ => True
  end.

(** A thread that cannot move and is not to blame for it: it is between two
    calls, or it waits for the semaphore while the count is zero. *)
Definition quiet (sem : nat) (p : pc) : bool :=
  match p with
  | Idle => true
  | Pop_sem => bool_decide (sem = 0)
  | _ => false
  end.

(** What holds of every state the threads can reach. The count of the
    semaphore and the credits of the threads add up to the length of the
    list; the lock is taken exactly when one thread is inside a critical
    section; the items that were appended are, each as often as it was
    appended, in the hand of a thread, on the list, or returned. *)
Record invariant (s : system) : Prop := {
  inv_count :
    _sem (obj s) + sum_list_with credit (pcs s) = length (_list (obj s));
  inv_lock :
    sum_list_with holds_lock (pcs s) = if _lock (obj s) then 1 else 0;
  inv_threads : ∀ t p, pcs s !! t = Some p → sound p;
  inv_returned : ∀ r, r ∈ returned s → is_Some r;
  inv_conserved :
    appended s ≡ₚ (pcs s ≫= in_hand) ++ _list (obj s) ++ omap id (returned s)
}.

End Object.
Arguments _SyncList A : clear implicits.
Arguments pc A : clear implicits.
Arguments system A : clear implicits.
Arguments action A : clear implicits.
Arguments method A : clear implicits.
Arguments sound {A} p.
Arguments invariant {A} s.

End SyncList.

(** ** [PyMW_Task] and the environment it runs in *)

Module Task.

(** What [submit_task] is given to execute: a script's file name, a Python
    function, or some other object. [repr] is what [str()] prints for it. *)
Inductive executable :=
| ExeStr (s : string)
| ExeFunc (repr : string)
| ExeOther (repr : string).

Definition str_of_executable (e : executable) : string :=
  match e with
  | ExeStr s => s
  | ExeFunc repr => repr
  | ExeOther repr => repr
  end.

(** [_error] is assigned by [task_finished] only: it is [None] while the
    attribute does not exist, [Some None] once it holds Python's [None] and
    [Some (Some e)] once it holds an exception. [_finish_event] is the flag of
    the [threading.Event]. *)
Record PyMW_Task := mk_task {
  _executable : executable;
  _input_data : value;
  _output_data : value;
  _task_name : string;
  _input_arg : string;
  _output_arg : string;
  _finish_event : bool;
  _error : option (option exn)
}.

(** A task object is named by its position in the heap. *)
Abbreviation ref := nat (only parsing).

(** What starting a program and waiting for it gives. *)
Inductive popen_result :=
| Popen_OSError (msg : string)               (* the program could not be started *)
| Popen_done (proc_stdout proc_stderr : string).

(** What a file holds: the pickle of an object, or characters that are not
    a pickle -- a plain-text artifact of the Condor backend, an output that
    was cut short, an empty file. *)
Inductive file :=
| Pickle (obj : value)
| Text (s : string).

(** The process's surroundings. [heap] holds the task objects. [files] maps
    the path of a file that is there to what it holds. [creatable] tells
    whether [open(path, 'w')] succeeds, and [popen] what running a command
    line with given creation flags does. *)
Record World := mk_world {
  heap : list PyMW_Task;
  files : gmap string file;
  creatable : string → bool;
  cwd : string;
  platform : string;
  popen : list string → Z → popen_result
}.

Definition set_heap (h : list PyMW_Task) (w : World) : World :=
  {| heap := h; files := files w; creatable := creatable w;
     cwd := cwd w; platform := platform w; popen := popen w |}.
Definition set_files (f : gmap string file) (w : World) : World :=
  {| heap := heap w; files := f; creatable := creatable w;
     cwd := cwd w; platform := platform w; popen := popen w |}.

(** Reading the object behind a reference. *)
Definition deref (r : ref) : M World PyMW_Task :=
  λ w, match heap w !! r with
       | Some t => (w, Return t)
       | None => (w, Dangling)
       end.

Definition store (r : ref) (t : PyMW_Task) : M World unit :=
  modify (λ w, set_heap (<[r := t]> (heap w)) w).

(** [open(path, 'w')], [Pickler(f).dump(obj)], [f.close()] *)
Definition pickle_to (path : string) (obj : value) : M World unit :=
  λ w, if creatable w path
       then (set_files (<[path := Pickle obj]> (files w)) w, Return tt)
       else (w, Raise (IOError path)).

(** What [Unpickler(f).load()] raises on a file that holds the characters
    [s] and no pickle: [EOFError] when the file is empty, and an error of the
    unpickler otherwise. [UnpicklingError] stands for whatever [cPickle]
    raises on these characters; like [EOFError], it is none of the classes
    [task_finished] catches. *)
Definition load_error (s : string) : exn :=
  match s with
  | "" => EOFError ""
  | _ => UnpicklingError "invalid load key"
  end.

(** [open(path, 'r')], [Unpickler(f).load()], [f.close()]: a missing file
    makes [open] raise [IOError]; a file that is there gives the object
    pickled in it, or makes [load] raise when it holds no pickle. *)
Definition unpickle_from (path : string) : M World value :=
  λ w, match files w !! path with
       | Some (Pickle obj) => (w, Return obj)
       | Some (Text s) => (w, Raise (load_error s))
       | None => (w, Raise (IOError path))
       end.

(** The object pickled in the file at [path], if the file is there and
    holds a pickle. *)
Definition pickled (w : World) (path : string) : option value :=
  match files w !! path with
  | Some (Pickle obj) => Some obj
  | _ => None
  end.

(** The file at [path] is missing or holds a pickle. *)
Definition missing_or_pickled (w : World) (path : string) : Prop :=
  match files w !! path with
  | Some (Text _) => False
  | _ => True
  end.

(** [except OSError: pass / except IOError: pass] around [body]. *)
Definition pass_os_io_errors (body : M World unit) : M World unit :=
  try_except body
    (λ e, match class_of e with
          | COSError | CIOError => ret tt
          | _ => raise e
          end).

(** A Python string used as a condition: [None] and the empty string are
    false. *)
Definition truthy (s : option string) : bool :=
  match s with
  | None | Some "" => false
  | Some _ => true
  end.

(** [PyMW_Task(task_name, executable, input_data, input_arg, output_arg,
    file_loc)]: the reference of the new object. *)
Definition __init__ (task_name : string) (executable_ : executable)
    (input_data : value) (input_arg output_arg : option string)
    (file_loc : string) : M World ref :=
  match executable_ with
  | ExeOther _ => raise (TypeError "executable must be a filename or Python function")
  | _ =>
      let input_arg' :=
        if truthy input_arg then default "" input_arg
        else file_loc +:+ "/in_" +:+ task_name +:+ ".dat" in
      let output_arg' :=
        if truthy output_arg then default "" output_arg
        else file_loc +:+ "/out_" +:+ task_name +:+ ".dat" in
      pickle_to input_arg' input_data ;;
      w <- get ;;
      let self := length (heap w) in
      put (set_heap (heap w ++ [ {| _executable := executable_;
                                    _input_data := input_data;
                                    _output_data := VNone;
                                    _task_name := task_name;
                                    _input_arg := input_arg';
                                    _output_arg := output_arg';
                                    _finish_event := false;
                                    _error := None |} ]) w) ;;
      ret self
  end.

(** [str(task)] *)
Definition __str__ (self : ref) : M World string :=
  t <- deref self ;; ret (_task_name t).

Definition set_error (task_err : option exn) (t : PyMW_Task) : PyMW_Task :=
  {| _executable := _executable t; _input_data := _input_data t;
     _output_data := _output_data t; _task_name := _task_name t;
     _input_arg := _input_arg t; _output_arg := _output_arg t;
     _finish_event := _finish_event t; _error := Some task_err |}.
Definition set_output_data (v : value) (t : PyMW_Task) : PyMW_Task :=
  {| _executable := _executable t; _input_data := _input_data t;
     _output_data := v; _task_name := _task_name t;
     _input_arg := _input_arg t; _output_arg := _output_arg t;
     _finish_event := _finish_event t; _error := _error t |}.
Definition set_finish_event (t : PyMW_Task) : PyMW_Task :=
  {| _executable := _executable t; _input_data := _input_data t;
     _output_data := _output_data t; _task_name := _task_name t;
     _input_arg := _input_arg t; _output_arg := _output_arg t;
     _finish_event := true; _error := _error t |}.

(** [task.task_finished(task_err)]: the completion callback. An exception
    of [load] that is neither [OSError] nor [IOError] leaves the method
    before the event is set, the error being assigned already. *)
Definition task_finished (self : ref) (task_err : option exn) : M World unit :=
  t <- deref self ;;
  store self (set_error task_err t) ;;
  pass_os_io_errors
    (t <- deref self ;;
     v <- unpickle_from (_output_arg t) ;;
     store self (set_output_data v t)) ;;
  t <- deref self ;;
  store self (set_finish_event t).

(** [task.is_task_finished(wait)]; [self._finish_event.wait()] on an event
    that is not set blocks the caller. *)
Definition is_task_finished (self : ref) (wait : bool) : M World bool :=
  t <- deref self ;;
  if negb (_finish_event t) then
    if negb wait then ret false
    else block
  else ret true.



End Task.

(** ** [PyMW_Scheduler] *)

Module Scheduler.
Import SyncList Task.

(** [self._task_list] is the Master's [_queued_tasks] object itself, so the
    methods run on the scheduler together with that list. The queue holds
    task references and the sentinel [None]. *)
Record PyMW_Scheduler := mk_scheduler {
  _finished : bool
}.

Definition __init__ : PyMW_Scheduler := {| _finished := false |}.

(** [self._exit()] *)
Definition _exit : M (PyMW_Scheduler * _SyncList (option ref)) unit :=
  on_fst (put {| _finished := true |}) ;;
  on_snd (append None).

(** [self._scheduler()], the loop of the scheduler thread. Handing a task to
    a new thread that runs [execute_task] is recorded by listing the task;
    [fuel] bounds the number of iterations. *)
Fixpoint _scheduler (fuel : nat) : M (PyMW_Scheduler * _SyncList (option ref)) (list ref) :=
  match fuel with
  | O => ret []
  | S fuel' =>
      st <- get ;;
      if _finished st.1 then ret []
      else
        next_task <- on_snd wait_pop ;;
        match next_task with
        | Some (Some task) => rest <- _scheduler fuel' ;; ret (task :: rest)
        | _ => _scheduler fuel'
        end
  end.

End Scheduler.

(** ** [PyMW_Master] *)

Module Master.
Import SyncList Task Scheduler.

(** [_interface] only serves the scheduler thread and [_state_shelve] is
    opened and never read or written; neither is kept. *)
Record PyMW_Master := mk_master {
  _submitted_tasks : _SyncList ref;
  _queued_tasks : _SyncList (option ref);
  _use_state_records : bool;
  _task_dir_name : string;
  _cur_task_num : nat;
  _scheduler : PyMW_Scheduler
}.

(** [PyMW_Master(interface, use_state_records)] *)
Definition __init__ (use_state_records : bool) : PyMW_Master :=
  {| _submitted_tasks := SyncList.__init__;
     _queued_tasks := SyncList.__init__;
     _use_state_records := use_state_records;
     _task_dir_name := "tasks";
     _cur_task_num := 0;
     _scheduler := Scheduler.__init__ |}.

Definition set_submitted_tasks (l : _SyncList ref) (m : PyMW_Master) : PyMW_Master :=
  {| _submitted_tasks := l; _queued_tasks := _queued_tasks m;
     _use_state_records := _use_state_records m;
     _task_dir_name := _task_dir_name m; _cur_task_num := _cur_task_num m;
     _scheduler := _scheduler m |}.
Definition set_queued_tasks (l : _SyncList (option ref)) (m : PyMW_Master) : PyMW_Master :=
  {| _submitted_tasks := _submitted_tasks m; _queued_tasks := l;
     _use_state_records := _use_state_records m;
     _task_dir_name := _task_dir_name m; _cur_task_num := _cur_task_num m;
     _scheduler := _scheduler m |}.
Definition set_cur_task_num (n : nat) (m : PyMW_Master) : PyMW_Master :=
  {| _submitted_tasks := _submitted_tasks m; _queued_tasks := _queued_tasks m;
     _use_state_records := _use_state_records m;
     _task_dir_name := _task_dir_name m; _cur_task_num := n;
     _scheduler := _scheduler m |}.
Definition set_scheduler (s : PyMW_Scheduler) (m : PyMW_Master) : PyMW_Master :=
  {| _submitted_tasks := _submitted_tasks m; _queued_tasks := _queued_tasks m;
     _use_state_records := _use_state_records m;
     _task_dir_name := _task_dir_name m; _cur_task_num := _cur_task_num m;
     _scheduler := s |}.

(** The state of a method of the Master: the world and [self]. *)
Definition state : Type := World * PyMW_Master.

Definition self_ : M state PyMW_Master := s <- get ;; ret s.2.
Definition on_self {A} (c : M PyMW_Master A) : M state A := on_snd c.
Definition on_world {A} (c : M World A) : M state A := on_fst c.
Definition on_submitted {A} (c : M (_SyncList ref) A) : M state A :=
  on_self (zoom _submitted_tasks set_submitted_tasks c).
Definition on_queued {A} (c : M (_SyncList (option ref)) A) : M state A :=
  on_self (zoom _queued_tasks set_queued_tasks c).
(** The scheduler and the queue it shares with the Master. *)
Definition on_scheduler {A} (c : M (PyMW_Scheduler * _SyncList (option ref)) A) : M state A :=
  on_self (zoom (λ m, (_scheduler m, _queued_tasks m))
                (λ sq m, set_scheduler sq.1 (set_queued_tasks sq.2 m)) c).

(** [for task in self._submitted_tasks: if str(task) == task_name: return task]
    from position [pos] on; [None] when the loop runs to its end. *)
Fixpoint find_submitted (fuel pos : nat) (task_name : string) : M state (option ref) :=
  match fuel with
  | O => ret None
  | S fuel' =>
      o <- on_submitted (iter_next pos) ;;
      match o with
      | None => ret None
      | Some task =>
          name <- on_world (__str__ task) ;;
          if String.eqb name task_name then ret (Some task)
          else find_submitted fuel' (S pos) task_name
      end
  end.

(** The first statement of [submit_task]: the name of the task, made from
    the executable and the counter unless the caller gave one. *)
Definition pick_task_name (executable_ : executable)
    (new_task_name : option string) : M state string :=
  if negb (truthy new_task_name) then
    self <- self_ ;;
    let task_name :=
      str_of_executable executable_ +:+ "_" +:+ pretty (_cur_task_num self) in
    on_self (modify (set_cur_task_num (_cur_task_num self + 1))) ;;
    ret task_name
  else ret (default "" new_task_name).

(** The rest of [submit_task]: the look-up under state records, then the
    new task on both lists. *)
Definition submit_named (task_name : string) (executable_ : executable)
    (input_data : value) : M state ref :=
  self <- self_ ;;
  found <-
    (if _use_state_records self
     then find_submitted (S (length (_list (_submitted_tasks self)))) 0 task_name
     else ret None) ;;
  match found with
  | Some task => ret task
  | None =>
      new_task <- on_world (Task.__init__ task_name executable_ input_data
                              None None (_task_dir_name self)) ;;
      on_submitted (append new_task) ;;
      on_queued (append (Some new_task)) ;;
      ret new_task
  end.

(** [self.submit_task(executable, input_data, new_task_name)] *)
Definition submit_task (executable_ : executable) (input_data : value)
    (new_task_name : option string) : M state ref :=
  task_name <- pick_task_name executable_ new_task_name ;;
  submit_named task_name executable_ input_data.

(** [self.get_result(task, wait)]; [task = None] is the omitted argument.
    A task object is true as a condition, so [task and ...] tests the
    registry exactly when a task is given; [==] on tasks is identity. *)
Definition get_result (task : option ref) (wait : bool) : M state (option ref * value) :=
  unknown <-
    match task with
    | Some t => known <- on_submitted (contains Nat.eqb t) ;; ret (negb known)
    | None => ret false
    end ;;
  if unknown : bool then raise (TaskException "Task has not been submitted")
  else
    n <- on_submitted __len__ ;;
    if decide (n = 0%nat) then raise (TaskException "No tasks yet submitted")
    else
      match task with
      | None =>
          raise (AttributeError "'NoneType' object has no attribute 'is_task_finished'")
      | Some t =>
          finished <- on_world (is_task_finished t wait) ;;
          if negb finished then ret (None, VNone)
          else
            obj <- on_world (deref t) ;;
            match _error obj with
            | None =>
                raise (AttributeError "PyMW_Task instance has no attribute '_error'")
            | Some (Some e) => on_scheduler _exit ;; raise e
            | Some None => ret (Some t, _output_data obj)
            end
      end.

End Master.

(** ** [CondorInterface] *)

Module Condor.
Import Task.

(** [s.startswith(p)] *)
Fixpoint startswith (p s : string) : bool :=
  match p, s with
  | "", _ => true
  | String a p', String b s' => if Ascii.eqb a b then startswith p' s' else false
  | String _ _, "" => false
  end.

(** [s.replace(old, new)] for a non-empty [old]: the occurrences are found
    from the left and do not overlap. [skip] counts the characters of an
    occurrence that are still to be dropped. *)
Fixpoint replace_from (old new s : string) (skip : nat) : string :=
  match s with
  | "" => ""
  | String c s' =>
      match skip with
      | S k => replace_from old new s' k
      | O =>
          if startswith old s
          then new +:+ replace_from old new s' (String.length old - 1)
          else String c (replace_from old new s' 0)
      end
  end.
Definition replace (s old new : string) : string := replace_from old new s 0.

(** [s.split(sep)] for a one-character separator. *)
Fixpoint split (sep : Ascii.ascii) (s : string) : list string :=
  match s with
  | "" => [""]
  | String c s' =>
      if Ascii.eqb c sep then "" :: split sep s'
      else match split sep s' with
           | part :: parts => String c part :: parts
           | [] => [String c ""]
           end
  end.

Definition slash : Ascii.ascii := Ascii.ascii_of_nat 47.

(** No [/] occurs in [s]. *)
Definition slash_free (s : string) : Prop :=
  ∀ a b : string, s ≠ a +:+ String slash b.
Definition nl : string := String (Ascii.ascii_of_nat 10) "".
Definition dq : string := String (Ascii.ascii_of_nat 34) "".

Definition CONDOR_TEMPLATE : string :=
  "Universe = vanilla" +:+ nl +:+
  "InitialDir = <INITIAL_DIR/>" +:+ nl +:+
  "Requirements = (OpSys == " +:+ dq +:+ "WINNT60" +:+ dq +:+
    " || OpSys == " +:+ dq +:+ "WINNT51" +:+ dq +:+ ")" +:+ nl +:+
  "Executable = <PYTHON_LOC/>" +:+ nl +:+
  "Error = <PYMW_ERROR/>" +:+ nl +:+
  "Log = <PYMW_LOG/>" +:+ nl +:+
  "Input = <PYMW_INPUT_FILE/>" +:+ nl +:+
  "Output = <PYMW_OUTPUT_FILE/>" +:+ nl +:+
  "Arguments = <PYMW_EXEC_NAME/>" +:+ nl +:+
  "ShouldTransferFiles = YES" +:+ nl +:+
  "WhenToTransferOutput = ON_EXIT" +:+ nl +:+
  "TransferInputFiles = <PYMW_EXEC_FILE/>" +:+ nl +:+
  "Queue".

(** An entry of [self._task_list]:
    [[task, err_file_name, log_file_name, submit_file_name]]. *)
Definition job : Type := ref * string * string * string.

(** [_task_list_lock] guards [_task_list] against the poller thread; the
    poller is not part of the model, so the lock is always free here and is
    left out. *)
Record CondorInterface := mk_condor {
  _python_loc : string;
  _condor_submit_loc : string;
  _task_list : list job;
  _result_checker_running : bool
}.

Definition state : Type := World * CondorInterface.

(** [CondorInterface(python_loc, condor_submit_loc)] on a given platform. *)
Definition __init__ (platform_ python_loc condor_submit_loc : string) : CondorInterface :=
  let win := startswith "win" platform_ in
  {| _python_loc :=
       if negb (String.eqb python_loc "") then python_loc
       else if win then "C:\Python25\python.exe" else "/usr/local/bin/python";
     _condor_submit_loc :=
       if negb (String.eqb condor_submit_loc "") then condor_submit_loc
       else if win then "C:\condor\bin\condor_submit.exe" else "condor_submit";
     _task_list := [];
     _result_checker_running := false |}.

(** [self.reserve_worker()] returns [None]. *)
Definition reserve_worker : M state unit := ret tt.

(** [try: os.remove(path) / except: pass] *)
Definition remove_quietly (path : string) : M World unit :=
  modify (λ w, set_files (delete path (files w)) w).

(** [f = open(path, "w"); f.write(text); f.close()] *)
Definition write_text (path text : string) : M World unit :=
  λ w, if creatable w path
       then (set_files (<[path := Text text]> (files w)) w, Return tt)
       else (w, Raise (IOError path)).

(** [subprocess.Popen(args, creationflags=cf, ...)] followed by
    [communicate()]: the two output streams, or [OSError]. *)
Definition popen_communicate (args : list string) (cf : Z) : M World (string * string) :=
  λ w, match popen w args cf with
       | Popen_OSError msg => (w, Raise (OSError msg))
       | Popen_done out err => (w, Return (out, err))
       end.

(** The first part of [execute_task], up to the [try]: the job description
    is rendered and written to the submit file. The result is the names of
    the error, log and submit files and the creation flags. *)
Definition prepare_submission (task : ref) : M state (string * string * string * Z) :=
  self <- (s <- get ;; ret s.2) ;;
  t <- on_fst (deref task) ;;
  w <- (s <- get ;; ret s.1) ;;
  let condor_template := CONDOR_TEMPLATE in
  let condor_template := replace condor_template "<PYTHON_LOC/>" (_python_loc self) in
  let condor_template := replace condor_template "<INITIAL_DIR/>" (cwd w) in
  match _executable t with
  | ExeStr exe =>
      let condor_template := replace condor_template "<PYMW_EXEC_FILE/>" exe in
      let condor_template := replace condor_template "<PYMW_INPUT_FILE/>" (_input_arg t) in
      let condor_template := replace condor_template "<PYMW_OUTPUT_FILE/>" (_output_arg t) in
      match split slash exe !! 1%nat with
      | None => raise (IndexError "list index out of range")
      | Some exec_name =>
          let condor_template := replace condor_template "<PYMW_EXEC_NAME/>" exec_name in
          let err_file_name := "tasks/" +:+ _task_name t +:+ ".err" in
          let condor_template := replace condor_template "<PYMW_ERROR/>" err_file_name in
          let log_file_name := "tasks/" +:+ _task_name t +:+ ".log" in
          let condor_template := replace condor_template "<PYMW_LOG/>" log_file_name in
          on_fst (remove_quietly err_file_name) ;;
          on_fst (remove_quietly log_file_name) ;;
          let submit_file_name := "tasks/" +:+ _task_name t +:+ "_condor" in
          on_fst (write_text submit_file_name condor_template) ;;
          let cf := if startswith "win" (platform w) then 134217728%Z else 0%Z in
          ret (err_file_name, log_file_name, submit_file_name, cf)
      end
  | _ => raise (TypeError "expected a character buffer object")
  end.

Definition set_task_list (l : list job) (c : CondorInterface) : CondorInterface :=
  {| _python_loc := _python_loc c; _condor_submit_loc := _condor_submit_loc c;
     _task_list := l; _result_checker_running := _result_checker_running c |}.
Definition set_result_checker_running (b : bool) (c : CondorInterface) : CondorInterface :=
  {| _python_loc := _python_loc c; _condor_submit_loc := _condor_submit_loc c;
     _task_list := _task_list c; _result_checker_running := b |}.

(** The [try] statement that ends [execute_task]. Starting the poller
    thread is recorded by the flag alone. *)
Definition submit (task : ref) (names : string * string * string * Z) : M state unit :=
  let '(err_file_name, log_file_name, submit_file_name, cf) := names in
  self <- (s <- get ;; ret s.2) ;;
  try_except
    (streams <- on_fst (popen_communicate [_condor_submit_loc self; submit_file_name] cf) ;;
     let proc_stderr := streams.2 in
     if negb (String.eqb proc_stderr "") then
       on_fst (task_finished task
                 (Some (Exception_ ("condor_submit failed with error:" +:+ nl +:+ proc_stderr))))
     else
       on_snd (modify (λ c, set_task_list
                 (_task_list c ++ [(task, err_file_name, log_file_name, submit_file_name)]) c)) ;;
       self <- (s <- get ;; ret s.2) ;;
       if negb (_result_checker_running self)
       then on_snd (modify (set_result_checker_running true))
       else ret tt)
    (λ e, match class_of e with
          | COSError =>
              on_fst (task_finished task
                        (Some (Exception_ ("Could not find task submission program "
                                           +:+ _condor_submit_loc self))))
          | _ => raise e
          end).

(** [self.pymw_master_read(loc)] and [self.pymw_master_write(output, loc)] *)
Definition pymw_master_read (loc : string) : M World value :=
  unpickle_from loc.
Definition pymw_master_write (output : value) (loc : string) : M World unit :=
  pickle_to loc output.

(** A submission fails when [condor_submit] cannot be started or writes to
    its error stream. *)
Definition submission_fails (r : popen_result) : Prop :=
  match r with
  | Popen_OSError _ => True
  | Popen_done _ proc_stderr => proc_stderr ≠ ""
  end.

(** [self.execute_task(task, worker)] *)
Definition execute_task (task : ref) (worker : unit) : M state unit :=
  names <- prepare_submission task ;;
  submit task names.

End Condor.

(** ** The example [genetic_alg.py] *)

Module GeneticAlg.

(** [fitness_func(ind)]: [reduce] without an initial value fails on an empty
    list. *)
Definition fitness_func (ind : list Z) : outcome Z :=
  match ind with
  | [] => Raise (TypeError "reduce() of empty sequence with no initial value")
  | x :: rest => Return (foldl Z.add x rest)
  end.

(** [crossover(ind1, ind2)], given the cut point that
    [random.randint(0, len(ind1))] draws: the slices [ind[:cpt]] and
    [ind[cpt:]] are [take] and [drop]. *)
Definition crossover (cpt : nat) (ind1 ind2 : list Z) : list Z * list Z :=
  let new_ind1 := take cpt ind1 ++ drop cpt ind2 in
  let new_ind2 := take cpt ind2 ++ drop cpt ind1 in
  (new_ind1, new_ind2).

(** [mutate(ind, mut_rate)], given for each position whether
    [random.random() < mut_rate] came out true: the list after the loop. *)
Fixpoint mutate (ind : list Z) (draws : list bool) : list Z :=
  match ind, draws with
  | x :: ind', d :: draws' =>
      (if d : bool then 1 - x else x)%Z :: mutate ind' draws'
  | _, _ => ind
  end.

End GeneticAlg.

(** ** The Master together with its callers, its scheduler and its backend *)

Module System.
Import SyncList Task Scheduler Master.

(** What can happen to a Master and its world: a caller submits a task or
    asks for a result, the scheduler thread runs one turn of its loop, the
    backend reports a task as finished, or a worker leaves a file: a pickled
    output, or an output that is no pickle. *)
Inductive call :=
| Submit_task (executable_ : executable) (input_data : value)
    (new_task_name : option string)
| Get_result (task : option ref) (wait : bool)
| Scheduler_turn
| Task_finished (task : ref) (task_err : option exn)
| Write_file (path : string) (contents : file).

(** The state a call leaves behind, whether it returned, raised or blocked. *)
Definition perform (c : call) (st : state) : state :=
  match c with
  | Submit_task executable_ input_data new_task_name =>
      (submit_task executable_ input_data new_task_name st).1
  | Get_result task wait => (get_result task wait st).1
  | Scheduler_turn => (on_scheduler (Scheduler._scheduler 1) st).1
  | Task_finished task task_err => (on_world (task_finished task task_err) st).1
  | Write_file path contents =>
      (set_files (<[path := contents]> (files st.1)) st.1, st.2)
  end.

Fixpoint run_calls (calls : list call) (st : state) : state :=
  match calls with
  | [] => st
  | c :: calls' => run_calls calls' (perform c st)
  end.

(** The name of the task behind a reference. *)
Definition name_of (w : World) (r : ref) : option string :=
  _task_name <$> heap w !! r.

(** The registry of submitted tasks and the names of the tasks in it. *)
Definition registry (st : state) : list ref := _list (_submitted_tasks st.2).
Definition registry_names (st : state) : list string :=
  omap (name_of st.1) (registry st).

(** The first task of [l] that carries [task_name]. *)
Fixpoint first_named (w : World) (task_name : string) (l : list ref) : option ref :=
  match l with
  | [] => None
  | r :: l' =>
      if bool_decide (name_of w r = Some task_name) then Some r
      else first_named w task_name l'
  end.

(** The Master after [self._scheduler._exit()]: the flag is raised and the
    sentinel [None] is on the queue. *)
Definition exited (m : PyMW_Master) : PyMW_Master :=
  set_scheduler {| _finished := true |}
    (set_queued_tasks
       {| _lock := false; _sem := S (_sem (_queued_tasks m));
          _list := _list (_queued_tasks m) ++ [None] |} m).

(** The name [submit_task] settles on, and the Master once the counter has
    been used for it. *)
Definition chosen_name (executable_ : executable) (new_task_name : option string)
    (m : PyMW_Master) : string :=
  if negb (truthy new_task_name)
  then str_of_executable executable_ +:+ "_" +:+ pretty (_cur_task_num m)
  else default "" new_task_name.
Definition counted (new_task_name : option string) (m : PyMW_Master) : PyMW_Master :=
  if negb (truthy new_task_name) then set_cur_task_num (_cur_task_num m + 1) m
  else m.

(** The object [PyMW_Task(task_name, executable, input_data=input_data,
    file_loc=file_loc)] builds, and the Master once the task [new_task] is on
    both of its lists. *)
Definition fresh_task (task_name : string) (executable_ : executable)
    (input_data : value) (file_loc : string) : PyMW_Task :=
  {| _executable := executable_;
     _input_data := input_data;
     _output_data := VNone;
     _task_name := task_name;
     _input_arg := file_loc +:+ "/in_" +:+ task_name +:+ ".dat";
     _output_arg := file_loc +:+ "/out_" +:+ task_name +:+ ".dat";
     _finish_event := false;
     _error := None |}.
Definition enlisted (new_task : ref) (m : PyMW_Master) : PyMW_Master :=
  set_queued_tasks
    {| _lock := false; _sem := S (_sem (_queued_tasks m));
       _list := _list (_queued_tasks m) ++ [Some new_task] |}
    (set_submitted_tasks
       {| _lock := false; _sem := S (_sem (_submitted_tasks m));
          _list := _list (_submitted_tasks m) ++ [new_task] |} m).

(** A call that gives no name to a task: any call but a submission under
    an explicit name. *)
Definition anonymous (c : call) : Prop :=
  match c with
  | Submit_task _ _ new_task_name => truthy new_task_name = false
  | _ => True
  end.

(** No underscore occurs in [s]. *)
Definition underscore_free (s : string) : Prop :=
  ∀ a b : string, s ≠ a +:+ "_" +:+ b.

(** A name as [submit_task] makes it from an executable and a value of the
    counter below [n]. *)
Definition automatic_below (n : nat) (name : string) : Prop :=
  ∃ (prefix : string) (k : nat), name = prefix +:+ "_" +:+ pretty k ∧ k < n.

(** Whether the output data of a task is set. *)
Definition output_is_set (t : PyMW_Task) : Prop := _output_data t ≠ VNone.

(** Whether a task has finished, and without error. *)
Definition finished_without_error (t : PyMW_Task) : Prop :=
  _finish_event t = true ∧ _error t = Some None.

(** What holds of a Master between two calls: no lock of its lists is
    taken, the tasks of the registry are on the heap and have names, under
    state records no two of them have the same name, and none of them has
    output data before it has finished. *)
Record consistent (st : state) : Prop := {
  registry_unlocked : _lock (_submitted_tasks st.2) = false;
  queue_unlocked : _lock (_queued_tasks st.2) = false;
  registry_allocated : ∀ r, r ∈ registry st → r < length (heap st.1);
  registry_named : "" ∉ registry_names st;
  registry_distinct : _use_state_records st.2 = true → NoDup (registry_names st);
  registry_outputs : ∀ r t,
    r ∈ registry st → heap st.1 !! r = Some t →
    output_is_set t → _finish_event t = true
}.

(** A world to start from in examples: no object and no file yet, every
    path can be created, and no program can be started. *)
Definition empty_world : World :=
  {| heap := []; files := ∅; creatable := λ _, true;
     cwd := "/home/pymw"; platform := "linux2";
     popen := λ _ _, Popen_OSError "No such file or directory" |}.

(** The kinds of error of the specification, as far as the program's
    exception classes realise them: [TaskException] is the TaskError and
    [InterfaceException] the InterfaceError. An error is of a third kind,
    as a ValidationError has to be, when it is of neither class. *)
Definition is_validation_error (e : exn) : Prop :=
  class_of e ≠ CTaskException ∧ class_of e ≠ CInterfaceException.

End System.

(** * Properties *)

(** ** The synchronised list, one caller at a time *)

Section SyncListSequential.
Import SyncList.
Context {A : Type}.
Implicit Types (q : _SyncList A) (l : list A).

Lemma pop_last_snoc l (x : A) : pop_last (l ++ [x]) = Some (x, l).
Proof.
  induction l as [|y l IH]; simpl; [done|]. by rewrite IH.
Qed.

Lemma pop_last_nil l : pop_last l = None ↔ l = [].
Proof.
  split; [|by intros ->].
  destruct l as [|x l]; [done|]. simpl.
  by destruct (pop_last l) as [[y r]|].
Qed.

Lemma pop_last_inv l (x : A) r : pop_last l = Some (x, r) → l = r ++ [x].
Proof.
  revert x r. induction l as [|y l IH]; intros x r; simpl; [done|].
  destruct (pop_last l) as [[z r']|] eqn:E.
  - intros [= <- <-]. by rewrite (IH z r').
  - intros [= <- <-]. by apply pop_last_nil in E as ->.
Qed.

(** With the lock free a call to [append] returns, and its whole effect is
    one more item at the end of the list and one more unit in the
    semaphore. *)
Lemma append_free q (item : A) :
  _lock q = false →
  append item q =
    ({| _lock := false; _sem := S (_sem q); _list := _list q ++ [item] |}, Return tt).
Proof.
  intros Hq. unfold append, bind, lock_acquire, list_append, sem_release,
    lock_release, modify. simpl. by rewrite Hq.
Qed.

(** With the lock free and the semaphore positive, [wait_pop] takes one unit
    of the semaphore and pops the end of the list. *)
Lemma wait_pop_free q n l (x : A) :
  _lock q = false → _sem q = S n → _list q = l ++ [x] →
  wait_pop q = ({| _lock := false; _sem := n; _list := l |}, Return (Some x)).
Proof.
  intros Hq Hs Hl. unfold wait_pop, bind, sem_acquire, lock_acquire,
    try_finally, try_except, list_pop, lock_release, ret. simpl.
  rewrite Hs, Hq. simpl. by rewrite Hl, pop_last_snoc.
Qed.

Lemma wait_pop_empty_sem q : _sem q = 0 → wait_pop q = (q, Blocks).
Proof.
  intros Hs. unfold wait_pop, bind, sem_acquire. by rewrite Hs.
Qed.

Lemma wait_pop_append q (item : A) :
  _lock q = false → wait_pop (append item q).1 = (q, Return (Some item)).
Proof.
  intros Hq. rewrite (append_free q item Hq). simpl.
  erewrite wait_pop_free; [|done..]. by destruct q; simplify_eq/=.
Qed.

Lemma append_all_free q (items : list A) :
  _lock q = false →
  append_all items q =
    ({| _lock := false; _sem := length items + _sem q; _list := _list q ++ items |},
     Return tt).
Proof.
  revert q. induction items as [|x items IH]; intros q Hq; simpl.
  - unfold ret. rewrite app_nil_r. by destruct q; simplify_eq/=.
  - unfold bind at 1. rewrite (append_free q x Hq).
    rewrite IH by done. simpl. rewrite <- app_assoc. simpl.
    by rewrite Nat.add_succ_r.
Qed.

Lemma wait_pop_n_free q (items : list A) l s :
  _lock q = false → _sem q = length items + s → _list q = l ++ items →
  wait_pop_n (length items) q =
    ({| _lock := false; _sem := s; _list := l |}, Return (Some <$> reverse items)).
Proof.
  revert q. induction items as [|x items IH] using rev_ind; intros q Hq Hs Hl.
  - simpl in *. rewrite app_nil_r in Hl. unfold ret. by destruct q; simplify_eq/=.
  - rewrite length_app in *. simpl in *.
    replace (length items + 1) with (S (length items)) in * by lia.
    rewrite app_assoc in Hl. simpl in *.
    unfold bind at 1. erewrite wait_pop_free; [|done..].
    unfold bind at 1. erewrite IH; [|done..].
    by rewrite reverse_snoc.
Qed.

End SyncListSequential.

(** C9. [wait_pop] removes and returns the item appended last, not the
    oldest one: whatever the list held before, after [append(a)] and then
    [append(b)] the first [wait_pop] returns [b] and leaves the list as it
    was after [append(a)]. *)
Theorem wait_pop_returns_latest {A} (q : SyncList._SyncList A) (a b : A) :
  SyncList._lock q = false →
  ∃ qa qb,
    SyncList.append a q = (qa, Return tt) ∧
    SyncList.append b qa = (qb, Return tt) ∧
    SyncList.wait_pop qb = (qa, Return (Some b)).
Proof.
  intros Hq.
  eexists _, _. split; [by apply append_free|]. split.
  - by apply append_free.
  - by apply wait_pop_free.
Qed.

Lemma wait_pop_returns_latest_witness :
  SyncList._lock (@SyncList.__init__ nat) = false ∧
  ∃ qa qb,
    SyncList.append 1 SyncList.__init__ = (qa, Return tt) ∧
    SyncList.append 2 qa = (qb, Return tt) ∧
    SyncList.wait_pop qb = (qa, Return (Some 2)).
Proof.
  split; [reflexivity|].
  apply (wait_pop_returns_latest SyncList.__init__ 1 2). reflexivity.
Defined.

(** C2. Appending N distinct items and then calling [wait_pop] N times
    returns exactly the N appended items: every call returns an item, the
    items returned are a rearrangement of the items appended, none of them
    is returned twice, and the list is left as it was before. *)
Theorem appends_then_pops_exact {A} (q : SyncList._SyncList A) (items : list A) :
  SyncList._lock q = false → NoDup items →
  ∃ q1 popped,
    SyncList.append_all items q = (q1, Return tt) ∧
    SyncList.wait_pop_n (length items) q1 = (q, Return (Some <$> popped)) ∧
    popped ≡ₚ items ∧ NoDup popped.
Proof.
  intros Hq Hnd.
  eexists _, (reverse items). split; [by apply append_all_free|].
  split; [|split].
  - erewrite wait_pop_n_free; [|done..]. by destruct q; simplify_eq/=.
  - apply reverse_Permutation.
  - by rewrite reverse_Permutation.
Qed.

Lemma appends_then_pops_exact_witness :
  ∃ q1 popped,
    SyncList.append_all [7; 8; 9] SyncList.__init__ = (q1, Return tt) ∧
    SyncList.wait_pop_n 3 q1 = (SyncList.__init__, Return (Some <$> popped)) ∧
    popped ≡ₚ [7; 8; 9] ∧ NoDup popped.
Proof.
  apply (appends_then_pops_exact SyncList.__init__ [7; 8; 9]).
  - reflexivity.
  - apply (bool_decide_unpack _). vm_compute. exact I.
Defined.

(** ** The synchronised list under concurrent callers *)

Section SyncListThreads.
Import SyncList.
Context {A : Type}.
Implicit Types (s : system A) (p : pc A) (q : _SyncList A).

Lemma sum_list_with_insert {B} (f : B → nat) (l : list B) i x y :
  l !! i = Some x →
  sum_list_with f (<[i:=y]> l) + f x = sum_list_with f l + f y.
Proof.
  revert i. induction l as [|z l IH]; intros [|i] H; simplify_eq/=; [lia|].
  specialize (IH _ H). lia.
Qed.

Lemma sum_list_with_lookup {B} (f : B → nat) (l : list B) i x :
  l !! i = Some x → f x ≤ sum_list_with f l.
Proof.
  intros H. apply sum_list_with_in. by eapply list_elem_of_lookup_2.
Qed.

Lemma sum_list_with_idle (f : pc A → nat) n :
  f Idle = 0 → sum_list_with f (replicate n Idle) = 0.
Proof. intros H. induction n; simpl; lia. Qed.

Lemma bind_insert {B C} (f : B → list C) (l : list B) i x y :
  l !! i = Some x →
  (<[i:=y]> l ≫= f) ++ f x ≡ₚ (l ≫= f) ++ f y.
Proof.
  revert i. induction l as [|z l IH]; intros [|i] H; simpl in H;
    simplify_eq; csimpl.
  - solve_Permutation.
  - rewrite <- !app_assoc. by rewrite (IH _ H).
Qed.

Lemma bind_in_hand_idle n : replicate n (@Idle A) ≫= in_hand = [].
Proof. induction n; [done|]. by csimpl. Qed.

Lemma bind_in_hand_all_idle (ps : list (pc A)) :
  Forall (λ p, p = Idle) ps → ps ≫= in_hand = [].
Proof. induction 1 as [|p ps -> _ IH]; [done|]. by csimpl. Qed.

Lemma fmap_Some_omap_id {B} (l : list (option B)) :
  (∀ r, r ∈ l → is_Some r) → Some <$> omap id l = l.
Proof.
  induction l as [|r l IH]; intros H; [done|].
  destruct (H r) as [x ->]; [by left|]. csimpl. f_equal.
  apply IH. intros r' Hr'. apply H. by right.
Qed.

Lemma sound_insert (l : list (pc A)) t p' :
  (∀ t' p, l !! t' = Some p → sound p) →
  sound p' →
  ∀ t' p, <[t:=p']> l !! t' = Some p → sound p.
Proof.
  intros Hl Hp' t' p [(-> & <- & _)|[_ H]]%list_lookup_insert_Some; eauto.
Qed.

Lemma invariant_boot n : invariant (@boot A n).
Proof.
  split; simpl.
  - by rewrite sum_list_with_idle.
  - by rewrite sum_list_with_idle.
  - intros t p H. by apply lookup_replicate in H as [-> _].
  - intros r Hr. by apply elem_of_nil in Hr.
  - by rewrite bind_in_hand_idle.
Qed.

(** A call enters its method: nothing changes but the position of the
    thread and, for [append], the history. *)
Lemma invariant_call s t p' items :
  pcs s !! t = Some Idle →
  credit p' = 0 → holds_lock p' = 0 → sound p' → in_hand p' = items →
  invariant s →
  invariant {| obj := obj s; pcs := <[t := p']> (pcs s);
               appended := appended s ++ items; returned := returned s |}.
Proof.
  intros Ht Hc Hh Hs Hi [Hcount Hlock Hthr Hret Hcons].
  pose proof (sum_list_with_insert credit _ _ _ p' Ht) as Hc'.
  pose proof (sum_list_with_insert holds_lock _ _ _ p' Ht) as Hh'.
  pose proof (bind_insert in_hand _ _ _ p' Ht) as Hb.
  simpl in *. rewrite app_nil_r in Hb.
  split; simpl; [lia|lia|by apply sound_insert|done|].
  rewrite Hb, Hcons, Hi. solve_Permutation.
Qed.

Lemma invariant_exec a s s' : exec a s = Some s' → invariant s → invariant s'.
Proof.
  intros Hexec Hs.
  destruct a as [t item|t|t|t eqb item|t]; simpl in Hexec;
    destruct (pcs s !! t) as [p|] eqn:Ht; try done.
  1-4: destruct p; try done; simplify_eq; by apply invariant_call.
  destruct Hs as [Hcount Hlock Hthr Hret Hcons].
  destruct (advance p (obj s)) as [[[p' q'] res]|] eqn:Hadv; [|done].
  simplify_eq.
  pose proof (sum_list_with_insert credit _ _ _ p' Ht) as Hc.
  pose proof (sum_list_with_insert holds_lock _ _ _ p' Ht) as Hh.
  pose proof (sum_list_with_lookup credit _ _ _ Ht) as Hc'.
  pose proof (sum_list_with_lookup holds_lock _ _ _ Ht) as Hh'.
  pose proof (bind_insert in_hand _ _ _ p' Ht) as Hb.
  pose proof (Hthr _ _ Ht) as Hp.
  destruct s as [[lk sm l] ps hist rets]. simpl in *.
  destruct p; simpl in Hadv; try done.
  - (* append: self._lock.acquire() *)
    destruct lk; simplify_eq/=.
    split; simpl; [lia|lia|by apply sound_insert|done|].
    apply (inj (.++ [item])) in Hb. by rewrite Hb.
  - (* append: self._list.append(item) *)
    simplify_eq/=. rewrite app_nil_r in Hb.
    split; simpl; [rewrite length_app; simpl; lia|lia|by apply sound_insert|done|].
    rewrite Hcons, <- Hb. solve_Permutation.
  - (* append: self._sem.release() *)
    simplify_eq/=. rewrite !app_nil_r in Hb.
    split; simpl; [lia|lia|by apply sound_insert|done|by rewrite Hb].
  - (* append: self._lock.release() *)
    destruct lk; simplify_eq/=; [|lia]. rewrite !app_nil_r in Hb.
    split; simpl; [lia|lia|by apply sound_insert|done|by rewrite Hb].
  - (* wait_pop: self._sem.acquire() *)
    destruct sm; simplify_eq/=. rewrite !app_nil_r in Hb.
    split; simpl; [lia|lia|by apply sound_insert|done|by rewrite Hb].
  - (* wait_pop: self._lock.acquire() *)
    destruct lk; simplify_eq/=. rewrite !app_nil_r in Hb.
    split; simpl; [lia|lia|by apply sound_insert|done|by rewrite Hb].
  - (* wait_pop: item = self._list.pop() *)
    unfold list_pop in Hadv. simpl in Hadv.
    destruct (pop_last l) as [[x r]|] eqn:Hpop; simplify_eq/=.
    + apply pop_last_inv in Hpop as ->. rewrite length_app in Hcount.
      rewrite app_nil_r in Hb. simpl in *.
      split; simpl; [lia|lia|apply sound_insert; [done|by eexists]|done|].
      rewrite Hcons, Hb. solve_Permutation.
    + apply pop_last_nil in Hpop as ->. simpl in *. lia.
  - (* wait_pop: finally self._lock.release() *)
    destruct Hp as [x ->].
    destruct lk; simplify_eq/=; [|lia]. rewrite app_nil_r in Hb.
    split; simpl; [lia|lia|by apply sound_insert| |].
    + intros r' [Hr| ->%list_elem_of_singleton]%elem_of_app; auto.
    + rewrite omap_app. simpl. rewrite Hcons, <- Hb. solve_Permutation.
  - (* __len__: self._lock.acquire() *)
    destruct lk; simplify_eq/=. rewrite !app_nil_r in Hb.
    split; simpl; [lia|lia|by apply sound_insert|done|by rewrite Hb].
  - (* __len__: l_len = len(self._list) *)
    simplify_eq/=. rewrite !app_nil_r in Hb.
    split; simpl; [lia|lia|by apply sound_insert|done|by rewrite Hb].
  - (* __len__: self._lock.release() *)
    destruct lk; simplify_eq/=; [|lia]. rewrite !app_nil_r in Hb.
    split; simpl; [lia|lia|by apply sound_insert|done|by rewrite Hb].
  - (* contains: self._lock.acquire() *)
    destruct lk; simplify_eq/=. rewrite !app_nil_r in Hb.
    split; simpl; [lia|lia|by apply sound_insert|done|by rewrite Hb].
  - (* contains: n = self._list.count(item) *)
    simplify_eq/=. rewrite !app_nil_r in Hb.
    split; simpl; [lia|lia|by apply sound_insert|done|by rewrite Hb].
  - (* contains: self._lock.release() *)
    destruct lk; simplify_eq/=; [|lia]. rewrite !app_nil_r in Hb.
    split; simpl; [lia|lia|by apply sound_insert|done|by rewrite Hb].
Qed.

Lemma invariant_run sched s s' : run sched s = Some s' → invariant s → invariant s'.
Proof.
  revert s. induction sched as [|a sched IH]; intros s; simpl.
  - by intros [= ->].
  - destruct (exec a s) as [s1|] eqn:Hexec; [|done].
    intros Hrun Hs. eapply IH; [done|]. by eapply invariant_exec.
Qed.

(** A thread that runs a whole call without interruption does to the
    object what the method does to it. *)
Lemma solo_append_is_append s t item :
  pcs s !! t = Some Idle → _lock (obj s) = false →
  run (solo_append t item) s =
    Some {| obj := (append item (obj s)).1; pcs := pcs s;
            appended := appended s ++ [item]; returned := returned s |}.
Proof.
  intros Ht Hq. pose proof (lookup_lt_Some _ _ _ Ht) as Hlt.
  rewrite append_free by done. destruct s as [[lk sm l] ps hist rets].
  simpl in *. subst lk. rewrite Ht. simpl.
  rewrite list_lookup_insert_eq by done. simpl.
  rewrite list_insert_insert_eq, list_lookup_insert_eq by done. simpl.
  rewrite list_insert_insert_eq, list_lookup_insert_eq by done. simpl.
  rewrite list_insert_insert_eq, list_lookup_insert_eq by done. simpl.
  by rewrite list_insert_insert_eq, list_insert_id.
Qed.

Lemma solo_wait_pop_is_wait_pop s t n l item :
  pcs s !! t = Some Idle → _lock (obj s) = false →
  _sem (obj s) = S n → _list (obj s) = l ++ [item] →
  wait_pop (obj s) = ((wait_pop (obj s)).1, Return (Some item)) ∧
  run (solo_wait_pop t) s =
    Some {| obj := (wait_pop (obj s)).1; pcs := pcs s;
            appended := appended s; returned := returned s ++ [Some item] |}.
Proof.
  intros Ht Hq Hs Hl. pose proof (lookup_lt_Some _ _ _ Ht) as Hlt.
  rewrite (wait_pop_free _ n l item) by done. split; [done|].
  destruct s as [[lk sm l'] ps hist rets]. simpl in *. subst lk sm l'.
  rewrite Ht. simpl. rewrite app_nil_r.
  rewrite list_lookup_insert_eq by done. simpl.
  rewrite list_insert_insert_eq, list_lookup_insert_eq by done. simpl.
  rewrite list_insert_insert_eq, list_lookup_insert_eq by done.
  unfold advance, list_pop. simpl. rewrite pop_last_snoc. simpl.
  rewrite list_insert_insert_eq, list_lookup_insert_eq by done. simpl.
  by rewrite list_insert_insert_eq, list_insert_id.
Qed.

End SyncListThreads.

(** X7. Under any interleaving nothing is lost and nothing is duplicated: once
    every call has returned, the items appended are the items still on the
    list together with the items returned, each as often as it was appended;
    and when as many items were returned as were appended, the list is empty
    and the items returned are the items appended. *)
Lemma completed_calls_conserve_items {A} (threads : nat)
    (sched : list (SyncList.action A)) (s : SyncList.system A) :
  SyncList.run sched (SyncList.boot threads) = Some s →
  Forall (λ p, p = SyncList.Idle) (SyncList.pcs s) →
  SyncList.appended s ≡ₚ
    SyncList._list (SyncList.obj s) ++ omap id (SyncList.returned s) ∧
  (length (SyncList.returned s) = length (SyncList.appended s) →
   SyncList._list (SyncList.obj s) = [] ∧
   Some <$> SyncList.appended s ≡ₚ SyncList.returned s).
Proof.
  intros Hrun Hidle.
  destruct (invariant_run _ _ _ Hrun (invariant_boot threads))
    as [_ _ _ Hret Hcons].
  rewrite (bind_in_hand_all_idle _ Hidle) in Hcons. simpl in Hcons.
  pose proof (fmap_Some_omap_id _ Hret) as Hsome.
  split; [done|]. intros Hlen.
  assert (SyncList._list (SyncList.obj s) = []) as Hnil.
  { apply length_zero_iff_nil. apply Permutation_length in Hcons.
    rewrite length_app in Hcons. rewrite <- Hsome, length_fmap in Hlen. lia. }
  split; [done|]. rewrite Hnil in Hcons. simpl in Hcons.
  by rewrite Hcons, Hsome.
Qed.

(** C10. In every state that concurrent callers of the methods can reach,
    the count of the semaphore does not exceed the length of the list; a
    thread of [wait_pop] that has passed the semaphore finds the list
    non-empty, so its [self._list.pop()] returns an item and the [except]
    branch with its [None] is never taken; and every value [wait_pop] has
    returned is an item that was passed to [append] before. *)
Theorem wait_pop_pops_appended_items {A} (threads : nat)
    (sched : list (SyncList.action A)) (s : SyncList.system A) :
  SyncList.run sched (SyncList.boot threads) = Some s →
  SyncList._sem (SyncList.obj s) ≤ length (SyncList._list (SyncList.obj s)) ∧
  (∀ t, SyncList.pcs s !! t = Some SyncList.Pop_lock ∨
        SyncList.pcs s !! t = Some SyncList.Pop_list →
        SyncList._list (SyncList.obj s) ≠ []) ∧
  (∀ t, SyncList.pcs s !! t = Some SyncList.Pop_list →
        ∃ item q', SyncList.list_pop (SyncList.obj s) = (q', Return item)) ∧
  (∀ t r, SyncList.pcs s !! t = Some (SyncList.Pop_unlock r) → r ≠ None) ∧
  (∀ r, r ∈ SyncList.returned s →
        ∃ item, r = Some item ∧ item ∈ SyncList.appended s).
Proof.
  intros Hrun.
  destruct (invariant_run _ _ _ Hrun (invariant_boot threads))
    as [Hcount Hlock Hthr Hret Hcons].
  assert (∀ t, SyncList.pcs s !! t = Some SyncList.Pop_lock ∨
               SyncList.pcs s !! t = Some SyncList.Pop_list →
               SyncList._list (SyncList.obj s) ≠ []) as Hne.
  { intros t Ht Hnil. rewrite Hnil in Hcount. simpl in Hcount.
    destruct Ht as [Ht|Ht];
      apply (sum_list_with_lookup SyncList.credit) in Ht; simpl in Ht; lia. }
  split; [lia|]. split; [done|]. split; [|split].
  - intros t Ht. unfold SyncList.list_pop.
    destruct (SyncList.pop_last _) as [[x r]|] eqn:Hpop; [by eauto|].
    apply pop_last_nil in Hpop. by destruct (Hne t (or_intror Ht)).
  - intros t r Ht. by destruct (Hthr _ _ Ht) as [x ->].
  - intros r Hr. destruct (Hret r Hr) as [x ->]. exists x. split; [done|].
    rewrite Hcons. apply elem_of_app. right. apply elem_of_app. right.
    apply list_elem_of_omap. by exists (Some x).
Qed.

(** One appender and one consumer, the consumer arriving first. *)
Lemma wait_pop_pops_appended_items_witness :
  let sched :=
    [SyncList.Call_wait_pop 1; SyncList.Call_append 0 5;
     SyncList.Step 0; SyncList.Step 0; SyncList.Step 0; SyncList.Step 1;
     SyncList.Step 0; SyncList.Step 1; SyncList.Step 1; SyncList.Step 1] in
  let s :=
    {| SyncList.obj := SyncList.__init__;
       SyncList.pcs := [SyncList.Idle; SyncList.Idle];
       SyncList.appended := [5];
       SyncList.returned := [Some 5] |} in
  SyncList.run sched (SyncList.boot 2) = Some s ∧
  ∀ r, r ∈ SyncList.returned s →
       ∃ item, r = Some item ∧ item ∈ SyncList.appended s.
Proof.
  intros sched s. split; [reflexivity|].
  apply (wait_pop_pops_appended_items 2 sched s). reflexivity.
Defined.

(** ** Task objects *)

Section TaskFacts.
Import Task System.
Implicit Types (w : World) (t : PyMW_Task) (r self : ref).

Lemma deref_Some w r t : heap w !! r = Some t → deref r w = (w, Return t).
Proof. intros H. unfold deref. by rewrite H. Qed.

Lemma deref_None w r : heap w !! r = None → deref r w = (w, Dangling).
Proof. intros H. unfold deref. by rewrite H. Qed.

Lemma store_lookup w r t t' :
  heap w !! r = Some t → heap (store r t' w).1 !! r = Some t'.
Proof.
  intros H. simpl. apply list_lookup_insert_eq. by eapply lookup_lt_Some.
Qed.

Lemma class_of_load_error s :
  class_of (load_error s) ≠ COSError ∧ class_of (load_error s) ≠ CIOError.
Proof. by destruct s. Qed.

Lemma missing_or_pickled_cases w path :
  missing_or_pickled w path ∨ ∃ s, files w !! path = Some (Text s).
Proof.
  unfold missing_or_pickled.
  destruct (files w !! path) as [[obj|s]|]; eauto.
Qed.

(** The callback when the output file is missing or holds a pickle: the
    task is finished. *)
Lemma task_finished_effect w self t task_err :
  heap w !! self = Some t →
  missing_or_pickled w (_output_arg t) →
  task_finished self task_err w =
    (set_heap
       (<[self := {| _executable := _executable t;
                     _input_data := _input_data t;
                     _output_data := default (_output_data t) (pickled w (_output_arg t));
                     _task_name := _task_name t;
                     _input_arg := _input_arg t;
                     _output_arg := _output_arg t;
                     _finish_event := true;
                     _error := Some task_err |}]> (heap w)) w,
     Return tt).
Proof.
  intros H Hfile. pose proof (lookup_lt_Some _ _ _ H) as Hlt.
  unfold task_finished. unfold bind at 1. rewrite (deref_Some _ _ _ H).
  unfold bind at 1. unfold store at 1, modify at 1.
  unfold bind at 1. unfold pass_os_io_errors, try_except.
  unfold bind at 1. erewrite deref_Some; [|by apply list_lookup_insert_eq].
  unfold bind at 1. unfold unpickle_from, missing_or_pickled, pickled in *.
  simpl.
  destruct (files w !! _output_arg t) as [[v|s]|] eqn:Hf; simpl; [|done|].
  - unfold bind, deref, store, modify. simpl.
    rewrite !list_insert_insert_eq, list_lookup_insert_eq by done. simpl.
    by rewrite !list_insert_insert_eq.
  - unfold bind, deref, store, modify. simpl.
    rewrite list_lookup_insert_eq by done. simpl.
    by rewrite !list_insert_insert_eq.
Qed.

(** The callback when the output file is there and holds no pickle: the
    error of [load] leaves the method, the error of the task is assigned and
    nothing else has changed; the event is not set. *)
Lemma task_finished_raises w self t task_err s :
  heap w !! self = Some t →
  files w !! _output_arg t = Some (Text s) →
  task_finished self task_err w =
    (set_heap (<[self := set_error task_err t]> (heap w)) w,
     Raise (load_error s)).
Proof.
  intros H Hfile. pose proof (lookup_lt_Some _ _ _ H) as Hlt.
  unfold task_finished. unfold bind at 1. rewrite (deref_Some _ _ _ H).
  unfold bind at 1. unfold store at 1, modify at 1.
  unfold bind at 1. unfold pass_os_io_errors, try_except.
  unfold bind at 1. erewrite deref_Some; [|by apply list_lookup_insert_eq].
  unfold bind at 1. unfold unpickle_from. simpl. rewrite Hfile.
  by destruct s.
Qed.

(** Either way the callback leaves every object of the heap as it was, but
    for the task itself. *)
Lemma task_finished_heap w self task_err :
  ∃ t', heap (task_finished self task_err w).1 = <[self := t']> (heap w) ∧
        ∀ t, heap w !! self = Some t →
             _task_name t' = _task_name t ∧ _error t' = Some task_err ∧
             (_finish_event t' = true ∨ _output_data t' = _output_data t ∧
                                        _finish_event t' = _finish_event t).
Proof.
  destruct (heap w !! self) as [t|] eqn:Ht.
  - destruct (missing_or_pickled_cases w (_output_arg t)) as [Hfile|[s Hfile]].
    + rewrite (task_finished_effect _ _ _ _ Ht Hfile). eexists. split; [done|].
      intros ? [= <-]. simpl. by auto.
    + rewrite (task_finished_raises _ _ _ _ _ Ht Hfile). eexists. split; [done|].
      intros ? [= <-]. simpl. by auto.
  - unfold task_finished, bind. rewrite (deref_None _ _ Ht). simpl.
    exists (set_finish_event (fresh_task "" (ExeStr "") VNone "")).
    split; [|done]. rewrite list_insert_ge; [done|]. by apply lookup_ge_None.
Qed.

End TaskFacts.

(** ** The Master *)

Section MasterFacts.
Import SyncList Task Scheduler Master System.
Implicit Types (w : World) (m : PyMW_Master) (st : state) (r task : ref).

(** *** The list methods as the Master sees them, the lock being free *)

Lemma len_free {A} (q : _SyncList A) :
  _lock q = false → __len__ q = (q, Return (length (_list q))).
Proof.
  intros Hq. unfold __len__, list_len, bind, lock_acquire, lock_release, get, ret.
  rewrite Hq. simpl. by destruct q; simplify_eq/=.
Qed.

Lemma count_eqb_zero (l : list ref) (item : ref) :
  length (filter (λ x, Nat.eqb x item = true) l) ≠ 0 ↔ item ∈ l.
Proof.
  induction l as [|x l IH]; simpl.
  - split; [done|]. intros H. by apply elem_of_nil in H.
  - rewrite filter_cons. destruct (decide (Nat.eqb x item = true)) as [Heq|Hne].
    + apply Nat.eqb_eq in Heq as ->. simpl. split; [|done]. intros _. by left.
    + rewrite IH. split; [by right|].
      intros [->|H]%elem_of_cons; [|done]. by rewrite Nat.eqb_refl in Hne.
Qed.

Lemma contains_free (q : _SyncList ref) (item : ref) :
  _lock q = false →
  contains Nat.eqb item q = (q, Return (bool_decide (item ∈ _list q))).
Proof.
  intros Hq. unfold contains, list_count, bind, lock_acquire, lock_release,
    get, ret.
  rewrite Hq. simpl.
  assert ({| _lock := false; _sem := _sem q; _list := _list q |} = q) as ->
    by (by destruct q; simplify_eq/=).
  pose proof (count_eqb_zero (_list q) item) as Hc.
  destruct (decide _) as [Hn|Hn].
  - by rewrite bool_decide_eq_true_2 by by apply Hc.
  - by rewrite bool_decide_eq_false_2 by (by rewrite <- Hc).
Qed.

Lemma iter_next_free {A} (q : _SyncList A) pos :
  _lock q = false → iter_next pos q = (q, Return (_list q !! pos)).
Proof.
  intros Hq. unfold iter_next. unfold bind at 1. rewrite len_free by done.
  destruct (decide _) as [Hle|Hgt].
  - unfold ret. by rewrite lookup_ge_None_2.
  - unfold bind, get. simpl.
    destruct (_list q !! pos) eqn:E; [done|].
    apply lookup_ge_None in E. lia.
Qed.

Lemma wait_pop_unlocked {A} (q : _SyncList A) :
  _lock q = false → _lock (wait_pop q).1 = false.
Proof.
  intros Hq. unfold wait_pop, bind, sem_acquire, lock_acquire, try_finally,
    try_except, list_pop, lock_release, ret.
  destruct (_sem q); simpl; [done|]. rewrite Hq. simpl.
  by destruct (pop_last (_list q)) as [[x r]|].
Qed.

(** *** Methods of the objects inside the state of the Master *)

Lemma on_submitted_run {A} (c : M (_SyncList ref) A) w m q' (o : outcome A) :
  c (_submitted_tasks m) = (q', o) →
  on_submitted c (w, m) = ((w, set_submitted_tasks q' m), o).
Proof.
  intros H. unfold on_submitted, on_self, on_snd, zoom. simpl. by rewrite H.
Qed.

Lemma on_submitted_same {A} (c : M (_SyncList ref) A) w m (o : outcome A) :
  c (_submitted_tasks m) = (_submitted_tasks m, o) →
  on_submitted c (w, m) = ((w, m), o).
Proof.
  intros H. rewrite (on_submitted_run _ _ _ _ _ H). by destruct m.
Qed.

Lemma on_world_run {A} (c : M World A) w m w' (o : outcome A) :
  c w = (w', o) → on_world c (w, m) = ((w', m), o).
Proof.
  intros H. unfold on_world, on_fst. simpl. by rewrite H.
Qed.

Lemma on_fst_eq {S T A} (c : M S A) (s : S) (t : T) :
  on_fst c (s, t) = (((c s).1, t), (c s).2).
Proof.
  unfold on_fst. simpl. by destruct (c s).
Qed.

Lemma on_world_eq {A} (c : M World A) w m :
  on_world c (w, m) = (((c w).1, m), (c w).2).
Proof.
  unfold on_world, on_fst. simpl. by destruct (c w).
Qed.

Lemma on_scheduler_exit w m :
  _lock (_queued_tasks m) = false →
  on_scheduler _exit (w, m) = ((w, exited m), Return tt).
Proof.
  intros Hq. unfold on_scheduler, on_self, on_snd, zoom, _exit, bind, on_fst,
    on_snd, put. simpl. by rewrite append_free.
Qed.

Lemma get_result_unknown st task wait :
  consistent st → task ∉ registry st →
  get_result (Some task) wait st =
    (st, Raise (TaskException "Task has not been submitted")).
Proof.
  intros [Hsub _ _ _ _ _] Hnot. destruct st as [w m]. simpl in *.
  unfold get_result. unfold bind at 1. unfold bind at 1.
  rewrite (on_submitted_same _ _ _ _ (contains_free _ task Hsub)).
  unfold ret. by rewrite bool_decide_eq_false_2.
Qed.

Lemma get_result_nothing_submitted st wait :
  consistent st → registry st = [] →
  get_result None wait st = (st, Raise (TaskException "No tasks yet submitted")).
Proof.
  intros [Hsub _ _ _ _ _] Hnil. destruct st as [w m]. unfold registry in Hnil.
  simpl in *. unfold get_result. unfold bind at 1. unfold ret at 1.
  unfold bind at 1. rewrite (on_submitted_same _ _ _ _ (len_free _ Hsub)).
  by rewrite Hnil.
Qed.

Lemma get_result_no_task st wait :
  consistent st → registry st ≠ [] →
  get_result None wait st =
    (st, Raise (AttributeError "'NoneType' object has no attribute 'is_task_finished'")).
Proof.
  intros [Hsub _ _ _ _ _] Hne. destruct st as [w m]. unfold registry in Hne.
  simpl in *. unfold get_result. unfold bind at 1. unfold ret at 1.
  unfold bind at 1. rewrite (on_submitted_same _ _ _ _ (len_free _ Hsub)).
  destruct (decide _) as [Hz|_]; [|done].
  by apply length_zero_iff_nil in Hz.
Qed.

(** What [get_result] does for a task of the registry, by the state of the
    task. *)
Lemma get_result_submitted st task t wait :
  consistent st → task ∈ registry st → heap st.1 !! task = Some t →
  get_result (Some task) wait st =
    if negb (_finish_event t) then
      if negb wait then (st, Return (None, VNone)) else (st, Blocks)
    else
      match _error t with
      | None => (st, Raise (AttributeError "PyMW_Task instance has no attribute '_error'"))
      | Some (Some e) => ((st.1, exited st.2), Raise e)
      | Some None => (st, Return (Some task, _output_data t))
      end.
Proof.
  intros [Hsub Hq _ _ _ _] Hin Ht. destruct st as [w m]. unfold registry in Hin.
  simpl in *. unfold get_result. unfold bind at 1. unfold bind at 1.
  rewrite (on_submitted_same _ _ _ _ (contains_free _ task Hsub)).
  unfold ret at 1. rewrite bool_decide_eq_true_2 by done. simpl.
  unfold bind at 1. rewrite (on_submitted_same _ _ _ _ (len_free _ Hsub)).
  destruct (decide _) as [Hz|_].
  { apply length_zero_iff_nil in Hz. rewrite Hz in Hin. by apply elem_of_nil in Hin. }
  unfold bind at 1.
  assert (is_task_finished task wait w =
          (w, if negb (_finish_event t)
              then if negb wait then Return false else Blocks
              else Return true)) as Hfin.
  { unfold is_task_finished, bind. rewrite (deref_Some _ _ _ Ht).
    by destruct (_finish_event t), wait. }
  rewrite (on_world_run _ _ _ _ _ Hfin).
  destruct (_finish_event t); simpl.
  - unfold bind at 1.
    rewrite (on_world_run _ _ _ _ _ (deref_Some _ _ _ Ht)).
    destruct (_error t) as [[e|]|]; [|done..].
    unfold bind. by rewrite on_scheduler_exit.
  - by destruct wait.
Qed.

(** *** [submit_task] *)

Lemma first_named_None w name (l : list ref) :
  first_named w name l = None ↔ name ∉ omap (name_of w) l.
Proof.
  induction l as [|r l IH]; simpl.
  - split; [|done]. intros _ H. by apply elem_of_nil in H.
  - case_bool_decide as Hr.
    + rewrite Hr. split; [done|]. intros H. destruct H. by left.
    + rewrite IH. destruct (name_of w r) as [n|] eqn:E; [|done].
      rewrite not_elem_of_cons. split; [|by intros [_ ?]].
      intros H. split; [congruence|done].
Qed.

Lemma first_named_Some w name (l : list ref) r :
  first_named w name l = Some r → r ∈ l ∧ name_of w r = Some name.
Proof.
  induction l as [|r' l IH]; simpl; [done|].
  case_bool_decide as Hr.
  - intros [= ->]. split; [by left|done].
  - intros H. destruct (IH H). split; [by right|done].
Qed.

Lemma find_submitted_free st fuel pos name :
  consistent st → length (registry st) - pos < fuel →
  find_submitted fuel pos name st =
    (st, Return (first_named st.1 name (drop pos (registry st)))).
Proof.
  intros [Hsub _ Halloc _ _ _]. destruct st as [w m]. unfold registry in *.
  simpl in *. revert pos.
  induction fuel as [|fuel IH]; intros pos Hfuel; [lia|]. simpl.
  unfold bind at 1.
  rewrite (on_submitted_same _ _ _ _ (iter_next_free _ pos Hsub)).
  destruct (_list (_submitted_tasks m) !! pos) as [r|] eqn:Hpos.
  - rewrite (drop_S _ _ _ Hpos). simpl.
    destruct (lookup_lt_is_Some_2 (heap w) r) as [t Ht].
    { apply Halloc. by eapply list_elem_of_lookup_2. }
    unfold bind at 1. unfold __str__.
    erewrite on_world_run; last first.
    { unfold bind. rewrite (deref_Some _ _ _ Ht). reflexivity. }
    unfold name_of. rewrite Ht. simpl.
    destruct (String.eqb_spec (_task_name t) name) as [->|Hne].
    + by rewrite bool_decide_eq_true_2.
    + rewrite bool_decide_eq_false_2 by congruence.
      apply IH. apply lookup_lt_Some in Hpos. lia.
  - apply lookup_ge_None in Hpos. by rewrite drop_ge.
Qed.

Lemma pick_task_name_run w m executable_ new_task_name :
  pick_task_name executable_ new_task_name (w, m) =
    ((w, counted new_task_name m),
     Return (chosen_name executable_ new_task_name m)).
Proof.
  unfold pick_task_name, counted, chosen_name.
  by destruct (negb (truthy new_task_name)).
Qed.

Lemma task_init_run w task_name executable_ input_data file_loc :
  Task.__init__ task_name executable_ input_data None None file_loc w =
    match executable_ with
    | ExeOther _ =>
        (w, Raise (TypeError "executable must be a filename or Python function"))
    | _ =>
        let t := fresh_task task_name executable_ input_data file_loc in
        if creatable w (_input_arg t)
        then (set_heap (heap w ++ [t]) (set_files (<[_input_arg t := Pickle input_data]> (files w)) w),
              Return (length (heap w)))
        else (w, Raise (IOError (_input_arg t)))
    end.
Proof.
  unfold Task.__init__, fresh_task. simpl.
  destruct executable_; [| |done];
    unfold bind, pickle_to, get, put, ret; simpl;
    by destruct (creatable w _).
Qed.

(** [submit_named] on a consistent state, as a function of the state. *)
Lemma submit_named_run st task_name executable_ input_data :
  consistent st →
  submit_named task_name executable_ input_data st =
    match (if _use_state_records st.2
           then first_named st.1 task_name (registry st) else None) with
    | Some task => (st, Return task)
    | None =>
        match executable_ with
        | ExeOther _ =>
            (st, Raise (TypeError "executable must be a filename or Python function"))
        | _ =>
            let t := fresh_task task_name executable_ input_data (_task_dir_name st.2) in
            if creatable st.1 (_input_arg t)
            then ((set_heap (heap st.1 ++ [t])
                     (set_files (<[_input_arg t := Pickle input_data]> (files st.1)) st.1),
                   enlisted (length (heap st.1)) st.2),
                  Return (length (heap st.1)))
            else (st, Raise (IOError (_input_arg t)))
        end
    end.
Proof.
  intros Hst. pose proof Hst as [Hsub Hq _ _ _ _]. destruct st as [w m].
  cbn [fst snd] in *. unfold submit_named.
  unfold bind at 1. unfold self_ at 1. unfold bind at 1. unfold get, ret at 1.
  cbn [snd]. unfold bind at 1.
  assert ((if _use_state_records m
           then find_submitted (S (length (_list (_submitted_tasks m)))) 0 task_name
           else ret None) (w, m) =
          ((w, m), Return (if _use_state_records m
                           then first_named w task_name (registry (w, m))
                           else None))) as ->.
  { destruct (_use_state_records m); [|done].
    rewrite find_submitted_free; [done|done|]. unfold registry. simpl. lia. }
  destruct (if _use_state_records m then _ else _) as [task|]; [done|].
  unfold bind at 1. rewrite on_world_eq, task_init_run.
  destruct executable_ as [exe|repr|repr]; [| |done].
  all: cbn zeta; destruct (creatable w _) eqn:Hc; [|done].
  all: cbn [fst snd].
  all: unfold bind at 1; erewrite on_submitted_run; [|by apply append_free].
  all: unfold bind at 1; unfold on_queued, on_self, on_snd, zoom; cbn [fst snd].
  all: unfold set_submitted_tasks at 1; cbn [_queued_tasks].
  all: rewrite append_free by done; done.
Qed.

(** *** The state between calls stays consistent *)

Lemma consistent_init w use_state_records :
  consistent (w, Master.__init__ use_state_records).
Proof.
  split; simpl; try done.
  - intros r Hr. by apply elem_of_nil in Hr.
  - intros H. by apply elem_of_nil in H.
  - intros _. constructor.
  - intros r t Hr. by apply elem_of_nil in Hr.
Qed.

Lemma chosen_name_nonempty executable_ new_task_name m :
  chosen_name executable_ new_task_name m ≠ "".
Proof.
  unfold chosen_name. destruct new_task_name as [[|c s]|]; simpl; try done.
  all: by destruct (str_of_executable executable_).
Qed.

Lemma omap_name_of_grow w w' (l : list ref) :
  (∀ r, r ∈ l → name_of w' r = name_of w r) →
  omap (name_of w') l = omap (name_of w) l.
Proof.
  induction l as [|r l IH]; intros H; csimpl; [done|].
  rewrite (H r) by by left. rewrite IH; [done|].
  intros r' Hr'. apply H. by right.
Qed.

(** A new task on both lists keeps the state consistent. *)
Lemma consistent_enlisted w m t fs :
  consistent (w, m) →
  _task_name t ≠ "" → _output_data t = VNone →
  (_use_state_records m = true →
   first_named w (_task_name t) (registry (w, m)) = None) →
  consistent (set_heap (heap w ++ [t]) (set_files fs w),
              enlisted (length (heap w)) m).
Proof.
  intros [Hsub Hq Halloc Hnamed Hdistinct Hout] Hname Hnone Hfind.
  unfold registry_names, registry in *. simpl in *.
  assert (omap (name_of (set_heap (heap w ++ [t]) (set_files fs w)))
               (_list (_submitted_tasks m) ++ [length (heap w)])
          = omap (name_of w) (_list (_submitted_tasks m)) ++ [_task_name t])
    as Hnames.
  { rewrite omap_app. f_equal.
    - apply omap_name_of_grow. intros r Hr. unfold name_of. simpl.
      by rewrite lookup_app_l by by apply Halloc.
    - simpl. unfold name_of. simpl. by rewrite list_lookup_middle. }
  split; unfold registry_names, registry; simpl.
  - done.
  - done.
  - intros r [Hr| ->%list_elem_of_singleton]%elem_of_app;
      rewrite length_app; simpl; [apply Halloc in Hr|]; lia.
  - rewrite Hnames. intros [H| H%list_elem_of_singleton]%elem_of_app; done.
  - intros Huse. rewrite Hnames.
    apply NoDup_app. split; [by apply Hdistinct|]. split; [|apply NoDup_singleton].
    intros x Hx ->%list_elem_of_singleton.
    by apply (first_named_None w (_task_name t)) in Hx; [|apply Hfind].
  - intros r t' [Hr| ->%list_elem_of_singleton]%elem_of_app.
    + rewrite lookup_app_l by by apply Halloc. by apply Hout.
    + rewrite list_lookup_middle by done. intros [= <-] Hset.
      by destruct Hset.
Qed.

Lemma consistent_submit_named st task_name executable_ input_data :
  task_name ≠ "" → consistent st →
  consistent (submit_named task_name executable_ input_data st).1.
Proof.
  intros Hname Hst. rewrite submit_named_run by done.
  destruct (if _use_state_records st.2 then _ else _) as [task|] eqn:Hfind;
    [done|].
  destruct executable_ as [exe|repr|repr]; [| |done].
  all: cbn zeta; destruct (creatable st.1 _); [|done].
  all: destruct st as [w m]; apply consistent_enlisted; try done.
  all: simpl in *; intros Huse; by rewrite Huse in Hfind.
Qed.

Lemma consistent_counted w m new_task_name :
  consistent (w, m) → consistent (w, counted new_task_name m).
Proof.
  intros [? ? ? ? ? ?]. unfold counted. destruct (negb _); by split.
Qed.

Lemma submit_task_run st executable_ input_data new_task_name :
  submit_task executable_ input_data new_task_name st =
    submit_named (chosen_name executable_ new_task_name st.2) executable_ input_data
      (st.1, counted new_task_name st.2).
Proof.
  destruct st as [w m]. unfold submit_task, bind.
  by rewrite pick_task_name_run.
Qed.

Lemma consistent_submit_task st executable_ input_data new_task_name :
  consistent st → consistent (submit_task executable_ input_data new_task_name st).1.
Proof.
  intros Hst. rewrite submit_task_run. destruct st as [w m].
  apply consistent_submit_named; [apply chosen_name_nonempty|].
  by apply consistent_counted.
Qed.

Lemma consistent_exited w m : consistent (w, m) → consistent (w, exited m).
Proof. intros [? ? ? ? ? ?]. by split. Qed.

Lemma get_result_state st (task : option ref) wait :
  consistent st →
  (get_result task wait st).1 = st ∨
  (get_result task wait st).1 = (st.1, exited st.2).
Proof.
  intros Hst. destruct task as [r|].
  - destruct (decide (r ∈ registry st)) as [Hin|Hnot].
    + destruct (lookup_lt_is_Some_2 (heap st.1) r) as [t Ht].
      { by apply (registry_allocated _ Hst). }
      rewrite (get_result_submitted _ _ _ _ Hst Hin Ht).
      destruct (_finish_event t), wait, (_error t) as [[e|]|]; simpl; auto.
    + rewrite get_result_unknown by done. by left.
  - destruct (decide (registry st = [])) as [Hnil|Hne].
    + rewrite get_result_nothing_submitted by done. by left.
    + rewrite get_result_no_task by done. by left.
Qed.

Lemma consistent_get_result st (task : option ref) wait :
  consistent st → consistent (get_result task wait st).1.
Proof.
  intros Hst. destruct (get_result_state st task wait Hst) as [-> | ->];
    [done|]. destruct st. by apply consistent_exited.
Qed.

Lemma consistent_scheduler_turn st :
  consistent st → consistent (on_scheduler (Scheduler._scheduler 1) st).1.
Proof.
  intros [Hsub Hq Halloc Hnamed Hdistinct Hout]. destruct st as [w m].
  unfold on_scheduler, on_self, on_snd, zoom. simpl in *.
  unfold bind at 1. unfold get. simpl.
  destruct (_finished (_scheduler m)); simpl.
  { by split. }
  unfold bind at 1. unfold on_snd. simpl.
  pose proof (wait_pop_unlocked _ Hq) as Hq'.
  destruct (wait_pop (_queued_tasks m)) as [q' [[[task|]|]| | |]]; simpl in *;
    by split.
Qed.

Lemma name_of_task_finished w task task_err r :
  name_of (task_finished task task_err w).1 r = name_of w r.
Proof.
  destruct (task_finished_heap w task task_err) as (t' & Hheap & Ht').
  unfold name_of. rewrite Hheap.
  destruct (decide (task = r)) as [->|Hne]; [|by rewrite list_lookup_insert_ne].
  destruct (heap w !! r) as [t|] eqn:Ht.
  - rewrite list_lookup_insert_eq by by eapply lookup_lt_Some.
    simpl. f_equal. by apply Ht'.
  - rewrite list_insert_ge; [by rewrite Ht|]. by apply lookup_ge_None.
Qed.

Lemma length_heap_task_finished w task task_err :
  length (heap (task_finished task task_err w).1) = length (heap w).
Proof.
  destruct (task_finished_heap w task task_err) as (t' & -> & _).
  by rewrite length_insert.
Qed.

Lemma lookup_task_finished w task task_err r t' :
  heap (task_finished task task_err w).1 !! r = Some t' →
  _finish_event t' = true ∨
  ∃ t, heap w !! r = Some t ∧ _output_data t' = _output_data t ∧
       _finish_event t' = _finish_event t.
Proof.
  destruct (task_finished_heap w task task_err) as (t1 & -> & Ht1).
  intros [(-> & <- & Hlt)|[_ H]]%list_lookup_insert_Some; [|by eauto].
  destruct (lookup_lt_is_Some_2 _ _ Hlt) as [t Ht].
  destruct (Ht1 t Ht) as (_ & _ & [?|[? ?]]); [by left|]. right. by eauto.
Qed.

Lemma consistent_task_finished st task task_err :
  consistent st → consistent (on_world (task_finished task task_err) st).1.
Proof.
  intros [Hsub Hq Halloc Hnamed Hdistinct Hout]. destruct st as [w m].
  rewrite on_world_eq. unfold registry_names, registry in *. simpl in *.
  assert (omap (name_of (task_finished task task_err w).1) (_list (_submitted_tasks m))
          = omap (name_of w) (_list (_submitted_tasks m))) as Hnames.
  { apply omap_name_of_grow. intros r _. apply name_of_task_finished. }
  split; unfold registry_names, registry; simpl; try done.
  - intros r Hr. rewrite length_heap_task_finished. by apply Halloc.
  - by rewrite Hnames.
  - by rewrite Hnames.
  - intros r t' Hr [Hfin|(t & Ht & Hdata & Hev)]%lookup_task_finished; [done|].
    unfold output_is_set. rewrite Hdata, Hev. by eapply Hout.
Qed.

Lemma consistent_perform c st : consistent st → consistent (perform c st).
Proof.
  intros Hst. destruct c; simpl.
  - by apply consistent_submit_task.
  - by apply consistent_get_result.
  - by apply consistent_scheduler_turn.
  - by apply consistent_task_finished.
  - destruct Hst as [? ? ? ? ? ?]. by split.
Qed.

Lemma consistent_run_calls calls st : consistent st → consistent (run_calls calls st).
Proof.
  revert st. induction calls as [|c calls IH]; intros st Hst; simpl; [done|].
  by apply IH, consistent_perform.
Qed.

Lemma on_scheduler_frame {A}
    (c : M (PyMW_Scheduler * _SyncList (option ref)) A) w m :
  _use_state_records (on_scheduler c (w, m)).1.2 = _use_state_records m.
Proof.
  unfold on_scheduler, on_self, on_snd, zoom. cbn [fst snd].
  by destruct (c _).
Qed.

Lemma on_scheduler_keeps {A}
    (c : M (PyMW_Scheduler * _SyncList (option ref)) A) w m :
  ∃ s q, (on_scheduler c (w, m)).1 = (w, set_scheduler s (set_queued_tasks q m)).
Proof.
  unfold on_scheduler, on_self, on_snd, zoom. cbn [fst snd].
  destruct (c _) as [[s q] o]. by eexists _, _.
Qed.

(** No call changes whether the Master keeps state records. *)
Lemma use_state_records_perform c st :
  consistent st → _use_state_records (perform c st).2 = _use_state_records st.2.
Proof.
  intros Hst. destruct c; simpl.
  - rewrite submit_task_run.
    rewrite submit_named_run by (destruct st; by apply consistent_counted).
    cbn [fst snd]. repeat case_match; simpl; unfold counted; by destruct (negb _).
  - by destruct (get_result_state st task wait Hst) as [-> | ->].
  - destruct st as [w m]. apply on_scheduler_frame.
  - destruct st as [w m]. by rewrite on_world_eq.
  - done.
Qed.

Lemma use_state_records_run_calls calls st :
  consistent st →
  _use_state_records (run_calls calls st).2 = _use_state_records st.2.
Proof.
  revert st. induction calls as [|c calls IH]; intros st Hst; simpl; [done|].
  rewrite IH by by apply consistent_perform. by apply use_state_records_perform.
Qed.

(** *** Names made from the counter *)

Lemma underscore_free_String c s :
  String c "" ≠ "_" → underscore_free s → underscore_free (String c s).
Proof.
  intros Hc Hs [|c' a] b; unfold String.append; fold String.append.
  - intros [= -> _]. done.
  - intros [= _ ->]. by apply (Hs a b).
Qed.

Lemma underscore_free_pretty_N_go x s :
  underscore_free s → underscore_free (pretty_N_go x s).
Proof.
  revert s. induction (N.lt_wf_0 x) as [x _ IH]; intros s Hs.
  assert (x = 0 ∨ 0 < x)%N as [->|?] by lia.
  - by rewrite pretty_N_go_0.
  - rewrite pretty_N_go_step by done. apply IH.
    { by apply N.div_lt. }
    apply underscore_free_String; [|done].
    unfold pretty_N_char. by repeat case_match.
Qed.

Lemma underscore_free_pretty (n : nat) : underscore_free (pretty n).
Proof.
  unfold pretty, pretty_nat, pretty, pretty_N. case_decide.
  - by intros [|? [|? ?]] b; unfold String.append; fold String.append.
  - apply underscore_free_pretty_N_go.
    by intros [|? ?] b; unfold String.append; fold String.append.
Qed.

(** What follows the last underscore of a name is determined by the name. *)
Lemma automatic_name_inj (p1 p2 d1 d2 : string) :
  underscore_free d1 → underscore_free d2 →
  p1 +:+ "_" +:+ d1 = p2 +:+ "_" +:+ d2 → d1 = d2.
Proof.
  intros H1 H2. revert p2.
  induction p1 as [|c1 p1 IH]; intros [|c2 p2];
    unfold String.append; fold String.append.
  - by intros [= ->].
  - intros [= <- ->]. by destruct (H1 p2 d2).
  - intros [= -> <-]. by destruct (H2 p1 d1).
  - intros [= _ H]. by apply (IH p2).
Qed.

Lemma automatic_name_counter (p1 p2 : string) (k1 k2 : nat) :
  p1 +:+ "_" +:+ pretty k1 = p2 +:+ "_" +:+ pretty k2 → k1 = k2.
Proof.
  intros H. apply (inj pretty).
  eapply automatic_name_inj; [apply underscore_free_pretty..|done].
Qed.

(** *** What a call does to the names of the registry and to the counter *)

Lemma registry_names_enlisted w m t fs :
  consistent (w, m) →
  registry_names (set_heap (heap w ++ [t]) (set_files fs w),
                  enlisted (length (heap w)) m) =
    registry_names (w, m) ++ [_task_name t].
Proof.
  intros [_ _ Halloc _ _ _]. unfold registry_names, registry in *. simpl in *.
  rewrite omap_app. f_equal.
  - apply omap_name_of_grow. intros r Hr. unfold name_of. simpl.
    by rewrite lookup_app_l by by apply Halloc.
  - simpl. unfold name_of. simpl. by rewrite list_lookup_middle.
Qed.

Lemma submit_task_names st executable_ input_data new_task_name :
  consistent st →
  let st' := (submit_task executable_ input_data new_task_name st).1 in
  _cur_task_num st'.2 = _cur_task_num (counted new_task_name st.2) ∧
  (registry_names st' = registry_names st ∨
   registry_names st' =
     registry_names st ++ [chosen_name executable_ new_task_name st.2]).
Proof.
  intros Hst st'. subst st'. rewrite submit_task_run. destruct st as [w m].
  pose proof (consistent_counted w m new_task_name Hst) as Hst'.
  rewrite submit_named_run by done. cbn [fst snd].
  assert (registry_names (w, counted new_task_name m) = registry_names (w, m))
    as Hsame by (unfold counted; by destruct (negb _)).
  destruct (if _use_state_records _ then _ else _) as [task|]; [by auto|].
  destruct executable_ as [exe|repr|repr]; [| |by auto].
  all: cbn zeta; destruct (creatable w _); [|by auto].
  all: cbn [fst snd]; split; [unfold counted; by destruct (negb _)|].
  all: right; by rewrite registry_names_enlisted, Hsame by done.
Qed.

Lemma other_call_names c st :
  consistent st →
  (∀ executable_ input_data new_task_name,
     c ≠ Submit_task executable_ input_data new_task_name) →
  _cur_task_num (perform c st).2 = _cur_task_num st.2 ∧
  registry_names (perform c st) = registry_names st.
Proof.
  intros Hst Hc. destruct c as [exe d n|task wait| |task task_err|path f];
    cbn [perform].
  - by destruct (Hc exe d n).
  - by destruct (get_result_state st task wait Hst) as [-> | ->].
  - destruct st as [w m].
    by destruct (on_scheduler_keeps (Scheduler._scheduler 1) w m) as (s & q & ->).
  - destruct st as [w m]. rewrite on_world_eq. split; [done|].
    unfold registry_names, registry. cbn [fst snd].
    apply omap_name_of_grow. intros r _. apply name_of_task_finished.
  - done.
Qed.

(** Submissions that leave the name to the Master give names made from the
    counter, each from a value the counter has passed, and no name twice. *)
Lemma automatic_names_perform c st :
  consistent st → anonymous c →
  Forall (automatic_below (_cur_task_num st.2)) (registry_names st) →
  NoDup (registry_names st) →
  Forall (automatic_below (_cur_task_num (perform c st).2))
    (registry_names (perform c st)) ∧
  NoDup (registry_names (perform c st)).
Proof.
  intros Hst Hc Hauto Hnd.
  assert ((∃ exe d n, c = Submit_task exe d n) ∨
          ∀ exe d n, c ≠ Submit_task exe d n)
    as [(exe & d & n & ->)|Hother] by (destruct c; by eauto).
  2: by destruct (other_call_names c st Hst Hother) as [-> ->].
  simpl in Hc.
  destruct (submit_task_names st exe d n Hst) as [Hnum Hnames].
  cbn [perform]. rewrite Hnum. unfold counted, chosen_name in *.
  rewrite Hc in *. cbn [negb set_cur_task_num _cur_task_num] in *.
  assert (Forall (automatic_below (_cur_task_num st.2 + 1)) (registry_names st))
    as Hauto'.
  { eapply Forall_impl; [done|]. intros name (p & k & -> & Hk).
    exists p, k. split; [done|lia]. }
  destruct Hnames as [-> | ->]; [done|]. split.
  - apply Forall_app. split; [done|]. apply Forall_singleton.
    eexists _, _. split; [done|lia].
  - apply NoDup_app. split; [done|]. split; [|apply NoDup_singleton].
    intros name Hin ->%list_elem_of_singleton.
    rewrite Forall_forall in Hauto. apply Hauto in Hin as (p & k & Heq & Hk).
    apply automatic_name_counter in Heq. lia.
Qed.

Lemma automatic_names_run_calls calls st :
  consistent st → Forall anonymous calls →
  Forall (automatic_below (_cur_task_num st.2)) (registry_names st) →
  NoDup (registry_names st) →
  NoDup (registry_names (run_calls calls st)).
Proof.
  revert st. induction calls as [|c calls IH]; intros st Hst Hcalls Hauto Hnd;
    simpl; [done|].
  apply Forall_cons in Hcalls as [Hc Hcalls].
  destruct (automatic_names_perform c st) as [Hauto' Hnd']; try done.
  apply IH; try done. by apply consistent_perform.
Qed.

Lemma registry_names_length st :
  consistent st → length (registry_names st) = length (registry st).
Proof.
  intros [_ _ Halloc _ _ _]. unfold registry_names.
  induction (registry st) as [|r l IH]; csimpl; [done|].
  destruct (lookup_lt_is_Some_2 (heap st.1) r) as [t Ht].
  { apply Halloc. by left. }
  unfold name_of at 1. rewrite Ht. simpl. f_equal. apply IH.
  intros r' Hr'. apply Halloc. by right.
Qed.

Lemma omap_NoDup_inj {B C} (f : B → option C) (l : list B) x y z :
  NoDup (omap f l) → x ∈ l → y ∈ l → f x = Some z → f y = Some z → x = y.
Proof.
  induction l as [|b l IH]; csimpl; intros Hnd Hx Hy Hfx Hfy.
  { by apply elem_of_nil in Hx. }
  apply elem_of_cons in Hx as [->|Hx], Hy as [->|Hy]; [done| | |].
  - rewrite Hfx in Hnd. apply NoDup_cons in Hnd as [Hnot _].
    destruct Hnot. apply list_elem_of_omap. eauto.
  - rewrite Hfy in Hnd. apply NoDup_cons in Hnd as [Hnot _].
    destruct Hnot. apply list_elem_of_omap. eauto.
  - apply IH; try done. destruct (f b); [by apply NoDup_cons in Hnd as [_ ?]|done].
Qed.

End MasterFacts.

(** C5, as the program has it. A task of the registry has no output data
    before it has finished. When the output file of the task is missing or
    holds a pickled object, the completion callback finishes the task and
    stores the error it is given; the output data becomes the object
    pickled in the output file when the file is there, with or without an
    error, and stays as it was when the file is missing. So for a task whose
    output was not set before, the output is set exactly when the output
    file holds an object other than [None]. *)
Theorem output_data_follows_output_file (w0 : Task.World)
    (use_state_records : bool) (calls : list System.call)
    (task : nat) (t : Task.PyMW_Task) :
  let st := System.run_calls calls (w0, Master.__init__ use_state_records) in
  task ∈ System.registry st →
  Task.heap st.1 !! task = Some t →
  (System.output_is_set t → Task._finish_event t = true) ∧
  ∀ task_err,
    Task.missing_or_pickled st.1 (Task._output_arg t) →
    ∃ w' t',
      Task.task_finished task task_err st.1 = (w', Return tt) ∧
      Task.heap w' !! task = Some t' ∧
      Task._finish_event t' = true ∧
      Task._error t' = Some task_err ∧
      Task._output_data t' =
        default (Task._output_data t) (Task.pickled st.1 (Task._output_arg t)) ∧
      (Task._output_data t = VNone →
       System.output_is_set t' ↔
       ∃ obj, Task.files st.1 !! Task._output_arg t = Some (Task.Pickle obj) ∧
              obj ≠ VNone).
Proof.
  intros st Hin Ht.
  assert (System.consistent st) as Hst
    by apply consistent_run_calls, consistent_init.
  split; [by apply (System.registry_outputs _ Hst task)|].
  intros task_err Hfile. rewrite (task_finished_effect _ _ _ _ Ht Hfile).
  eexists _, _. split; [reflexivity|]. split.
  { simpl. apply list_lookup_insert_eq. by eapply lookup_lt_Some. }
  simpl. repeat split; try done.
  - unfold System.output_is_set, Task.pickled. simpl. intros Hset.
    destruct (Task.files st.1 !! Task._output_arg t) as [[obj|s]|]; simpl in *;
      [by eauto|congruence..].
  - unfold System.output_is_set, Task.pickled. simpl.
    by intros (obj & -> & Hobj).
Qed.

Lemma output_data_follows_output_file_witness :
  let calls :=
    [System.Submit_task (Task.ExeStr "jobs/sum.py")
       (VList [VInt 1; VInt 2; VInt 3]) (Some "a");
     System.Write_file "tasks/out_a.dat" (Task.Pickle (VInt 6))] in
  let st := System.run_calls calls (System.empty_world, Master.__init__ false) in
  let t :=
    System.fresh_task "a" (Task.ExeStr "jobs/sum.py")
      (VList [VInt 1; VInt 2; VInt 3]) "tasks" in
  (0 ∈ System.registry st ∧ Task.heap st.1 !! 0 = Some t ∧
   Task.missing_or_pickled st.1 (Task._output_arg t)) ∧
  ∃ w' t',
    Task.task_finished 0 None st.1 = (w', Return tt) ∧
    Task.heap w' !! 0 = Some t' ∧
    Task._finish_event t' = true ∧
    Task._error t' = Some None ∧
    Task._output_data t' =
      default (Task._output_data t) (Task.pickled st.1 (Task._output_arg t)) ∧
    (Task._output_data t = VNone →
     System.output_is_set t' ↔
     ∃ obj, Task.files st.1 !! Task._output_arg t = Some (Task.Pickle obj) ∧
            obj ≠ VNone).
Proof.
  intros calls st t.
  assert (0 ∈ System.registry st) as Hin
    by (apply (bool_decide_unpack _); vm_compute; exact I).
  assert (Task.heap st.1 !! 0 = Some t) as Ht by reflexivity.
  assert (Task.missing_or_pickled st.1 (Task._output_arg t)) as Hfile
    by (vm_compute; exact I).
  split; [done|].
  exact (proj2 (output_data_follows_output_file System.empty_world false calls
                  0 t Hin Ht) None Hfile).
Defined.

(** C5 as stated fails: a task whose backend reports an error while its
    output file is there ends with an error and with its output set. *)
Lemma output_set_despite_error :
  let st :=
    System.run_calls
      [System.Submit_task (Task.ExeStr "jobs/sum.py") (VList [VInt 1; VInt 2; VInt 3]) (Some "a");
       System.Write_file "tasks/out_a.dat" (Task.Pickle (VInt 6));
       System.Task_finished 0 (Some (Exception_ "worker lost"))]
      (System.empty_world, Master.__init__ false) in
  ∃ t, Task.heap st.1 !! 0 = Some t ∧
       ¬ (System.output_is_set t ↔ System.finished_without_error t).
Proof.
  eexists. split; [vm_compute; reflexivity|].
  unfold System.output_is_set, System.finished_without_error. simpl.
  intros [Hset _]. by destruct Hset.
Qed.

(** The other half fails as well: a task reported as successful whose output
    file is missing ends without error and without output. *)
Lemma no_output_despite_success :
  let st :=
    System.run_calls
      [System.Submit_task (Task.ExeStr "jobs/sum.py") (VList [VInt 1; VInt 2; VInt 3]) (Some "a");
       System.Task_finished 0 None]
      (System.empty_world, Master.__init__ false) in
  ∃ t, Task.heap st.1 !! 0 = Some t ∧
       System.finished_without_error t ∧ ¬ System.output_is_set t.
Proof.
  eexists. split; [vm_compute; reflexivity|].
  unfold System.output_is_set, System.finished_without_error. simpl. by split; [|intros []].
Qed.

(** The plain course of events: a task is submitted, its worker leaves the
    output, the backend reports success, and [get_result] returns the task
    with its output. *)
Lemma get_result_returns_output :
  let st :=
    System.run_calls
      [System.Submit_task (Task.ExeStr "jobs/sum.py")
         (VList [VInt 1; VInt 2; VInt 3]) None;
       System.Scheduler_turn;
       System.Write_file "tasks/out_jobs/sum.py_0.dat" (Task.Pickle (VInt 6));
       System.Task_finished 0 None]
      (System.empty_world, Master.__init__ false) in
  Master.get_result (Some 0) true st = (st, Return (Some 0, VInt 6)).
Proof. vm_compute. reflexivity. Qed.

(** C8, as the program has it. The names of the tasks in the registry are
    pairwise distinct when the Master keeps state records, with or without
    names given by the callers, and also when it keeps none as long as no
    submission gives a name of its own: the names the Master makes from its
    counter differ from one another. This holds whatever the callers, the
    scheduler and the backend have done since the Master was made; every
    task of the registry has a name that counts here. *)
Theorem names_distinct_by_records_or_counter (w0 : Task.World)
    (use_state_records : bool) (calls : list System.call) :
  let st := System.run_calls calls (w0, Master.__init__ use_state_records) in
  use_state_records = true ∨ Forall System.anonymous calls →
  NoDup (System.registry_names st) ∧
  length (System.registry_names st) = length (System.registry st).
Proof.
  intros st Hcase.
  assert (System.consistent st) as Hst
    by apply consistent_run_calls, consistent_init.
  split; [|by apply registry_names_length].
  destruct Hcase as [-> | Hcalls].
  - apply (System.registry_distinct _ Hst).
    subst st. by rewrite use_state_records_run_calls by apply consistent_init.
  - apply automatic_names_run_calls; try done.
    + apply consistent_init.
    + apply NoDup_nil_2.
Qed.

(** Two submissions of one script that leave the name to a Master without
    state records: the tasks are named after the counter. *)
Lemma names_distinct_by_records_or_counter_witness :
  let calls :=
    [System.Submit_task (Task.ExeStr "jobs/sum.py") (VInt 1) None;
     System.Submit_task (Task.ExeStr "jobs/sum.py") (VInt 1) None] in
  let st := System.run_calls calls (System.empty_world, Master.__init__ false) in
  (false = true ∨ Forall System.anonymous calls) ∧
  System.registry_names st = ["jobs/sum.py_0"; "jobs/sum.py_1"] ∧
  NoDup (System.registry_names st) ∧
  length (System.registry_names st) = length (System.registry st).
Proof.
  intros calls st.
  assert (false = true ∨ Forall System.anonymous calls) as Hcase
    by (right; repeat constructor).
  split; [done|]. split; [reflexivity|].
  exact (names_distinct_by_records_or_counter System.empty_world false calls Hcase).
Defined.

(** C8 as stated fails: without state records, two submissions under one
    name leave two tasks of that name in the registry. *)
Lemma duplicate_names_without_state_records :
  ¬ NoDup (System.registry_names
             (System.run_calls
                [System.Submit_task (Task.ExeStr "jobs/sum.py") VNone (Some "a");
                 System.Submit_task (Task.ExeStr "jobs/sum.py") VNone (Some "a")]
                (System.empty_world, Master.__init__ false))).
Proof.
  intros H. vm_compute in H. apply NoDup_cons in H as [Hnot _].
  apply Hnot. by left.
Qed.

(** C3. Under state records, submitting under the name of a task that is in
    the registry returns that very task and changes nothing: no task is
    made, nothing is appended to the registry or to the queue. *)
Theorem resubmission_returns_original (w0 : Task.World) (calls : list System.call)
    (executable_ : Task.executable) (input_data : value) (name : string)
    (task : nat) (t : Task.PyMW_Task) :
  let st := System.run_calls calls (w0, Master.__init__ true) in
  task ∈ System.registry st →
  Task.heap st.1 !! task = Some t →
  Task._task_name t = name →
  Master.submit_task executable_ input_data (Some name) st = (st, Return task).
Proof.
  intros st Hin Ht Hname.
  assert (System.consistent st) as Hst
    by apply consistent_run_calls, consistent_init.
  assert (Master._use_state_records st.2 = true) as Huse.
  { subst st. by rewrite use_state_records_run_calls by apply consistent_init. }
  assert (System.name_of st.1 task = Some name) as Hnamed.
  { unfold System.name_of. rewrite Ht. simpl. by rewrite Hname. }
  assert (name ≠ "") as Hne.
  { intros ->. apply (System.registry_named _ Hst).
    apply list_elem_of_omap. eauto. }
  rewrite submit_task_run.
  assert (Task.truthy (Some name) = true) as Htruthy by by destruct name.
  unfold System.chosen_name, System.counted. rewrite Htruthy. simpl.
  replace (st.1, st.2) with st by by destruct st.
  rewrite submit_named_run by done. rewrite Huse.
  destruct (System.first_named _ _ _) as [task'|] eqn:Hfind.
  - apply first_named_Some in Hfind as [Hin' Hnamed'].
    f_equal. f_equal.
    eapply (omap_NoDup_inj (System.name_of st.1)); try done.
    by apply (System.registry_distinct _ Hst).
  - apply first_named_None in Hfind. destruct Hfind.
    apply list_elem_of_omap. eauto.
Qed.

Lemma resubmission_returns_original_witness :
  let st :=
    System.run_calls
      [System.Submit_task (Task.ExeStr "jobs/sum.py") VNone (Some "a")]
      (System.empty_world, Master.__init__ true) in
  let t := System.fresh_task "a" (Task.ExeStr "jobs/sum.py") VNone "tasks" in
  (0 ∈ System.registry st ∧ Task.heap st.1 !! 0 = Some t ∧ Task._task_name t = "a") ∧
  Master.submit_task (Task.ExeStr "jobs/other.py") (VInt 1) (Some "a") st = (st, Return 0).
Proof.
  intros st t.
  assert (0 ∈ System.registry st) as Hin
    by (apply (bool_decide_unpack _); vm_compute; exact I).
  assert (Task.heap st.1 !! 0 = Some t) as Ht by reflexivity.
  assert (Task._task_name t = "a") as Hname by reflexivity.
  split; [done|].
  exact (resubmission_returns_original System.empty_world
           [System.Submit_task (Task.ExeStr "jobs/sum.py") VNone (Some "a")]
           (Task.ExeStr "jobs/other.py") (VInt 1) "a" 0 t Hin Ht Hname).
Defined.

(** C4, as the program has it. [get_result] for a task that is not in the
    registry, and [get_result] without a task before anything has been
    submitted, raise [TaskException], the class that also stands for the
    failure of a task, and leave the Master as it was. *)
Theorem get_result_rejects_with_task_exception (w0 : Task.World)
    (use_state_records : bool) (calls : list System.call)
    (task : option nat) (wait : bool) :
  let st := System.run_calls calls (w0, Master.__init__ use_state_records) in
  (match task with
   | Some r => r ∉ System.registry st
   | None => System.registry st = []
   end) →
  Master.get_result task wait st =
    (st, Raise (TaskException
                  match task with
                  | Some _ => "Task has not been submitted"
                  | None => "No tasks yet submitted"
                  end)).
Proof.
  intros st Htask.
  assert (System.consistent st) as Hst
    by apply consistent_run_calls, consistent_init.
  destruct task as [r|].
  - by apply get_result_unknown.
  - by apply get_result_nothing_submitted.
Qed.

Lemma get_result_rejects_with_task_exception_witness :
  let st :=
    System.run_calls
      [System.Submit_task (Task.ExeStr "jobs/sum.py") VNone (Some "a")]
      (System.empty_world, Master.__init__ false) in
  (7 ∉ System.registry st) ∧
  Master.get_result (Some 7) true st =
    (st, Raise (TaskException "Task has not been submitted")).
Proof.
  intros st.
  assert (7 ∉ System.registry st) as Hnot
    by (apply (bool_decide_unpack _); vm_compute; exact I).
  split; [done|].
  exact (get_result_rejects_with_task_exception System.empty_world false
           [System.Submit_task (Task.ExeStr "jobs/sum.py") VNone (Some "a")]
           (Some 7) true Hnot).
Defined.

(** C4 as stated fails: the error raised for a task that was never
    submitted, and the error raised before any submission, are of the class
    of task failures, not of a third kind. *)
Lemma no_validation_error_kind :
  let st := (System.empty_world, Master.__init__ false) in
  (¬ ∃ e, (Master.get_result (Some 0) true st).2 = Raise e ∧
          System.is_validation_error e) ∧
  (¬ ∃ e, (Master.get_result None true st).2 = Raise e ∧
          System.is_validation_error e).
Proof.
  split; intros (e & He & Hkind & _); vm_compute in He;
    injection He as <-; by apply Hkind.
Qed.

(** C1. With the task omitted and at least one task submitted, [get_result]
    neither returns a finished task nor raises one of the Master's errors:
    every such call ends in [AttributeError], since it goes on to call
    [is_task_finished] on [None]. *)
Theorem get_result_without_task_fails (w0 : Task.World)
    (use_state_records : bool) (calls : list System.call) (wait : bool) :
  let st := System.run_calls calls (w0, Master.__init__ use_state_records) in
  System.registry st ≠ [] →
  Master.get_result None wait st =
    (st, Raise (AttributeError "'NoneType' object has no attribute 'is_task_finished'")).
Proof.
  intros st Hne. apply get_result_no_task; [|done].
  apply consistent_run_calls, consistent_init.
Qed.

(** A task is submitted, its output arrives and the backend reports it as
    finished; asking for the next finished task fails all the same. *)
Lemma get_result_without_task_fails_witness :
  let st :=
    System.run_calls
      [System.Submit_task (Task.ExeStr "jobs/sum.py")
         (VList [VInt 1; VInt 2; VInt 3]) (Some "a");
       System.Write_file "tasks/out_a.dat" (Task.Pickle (VInt 6));
       System.Task_finished 0 None]
      (System.empty_world, Master.__init__ false) in
  System.registry st ≠ [] ∧
  Master.get_result None true st =
    (st, Raise (AttributeError "'NoneType' object has no attribute 'is_task_finished'")).
Proof.
  intros st.
  assert (System.registry st ≠ []) as Hne by (vm_compute; discriminate).
  split; [done|].
  exact (get_result_without_task_fails System.empty_world false
           [System.Submit_task (Task.ExeStr "jobs/sum.py")
              (VList [VInt 1; VInt 2; VInt 3]) (Some "a");
            System.Write_file "tasks/out_a.dat" (Task.Pickle (VInt 6));
            System.Task_finished 0 None] true Hne).
Defined.

(** C7. [get_result] on a task of the registry that has finished with an
    error raises that error to its caller, and before it does so it tells
    the scheduler to stop: the flag [_finished] is set, so the loop of the
    scheduler makes no further turn, and the sentinel [None] is the next
    item the scheduler pops when it is waiting on the queue. The completion
    callback given the error does not raise it: when the output file of the
    task is missing or holds a pickled object, it returns normally and only
    records the error. *)
Theorem get_result_reraises_task_error (w0 : Task.World)
    (use_state_records : bool) (calls : list System.call)
    (task : nat) (t : Task.PyMW_Task) (e : exn) (wait : bool) :
  let st := System.run_calls calls (w0, Master.__init__ use_state_records) in
  task ∈ System.registry st →
  Task.heap st.1 !! task = Some t →
  Task._finish_event t = true →
  Task._error t = Some (Some e) →
  let m' := System.exited st.2 in
  Master.get_result (Some task) wait st = ((st.1, m'), Raise e) ∧
  Scheduler._finished (Master._scheduler m') = true ∧
  (∀ fuel,
     Scheduler._scheduler fuel (Master._scheduler m', Master._queued_tasks m') =
       ((Master._scheduler m', Master._queued_tasks m'), Return [])) ∧
  SyncList.wait_pop (Master._queued_tasks m') =
    (Master._queued_tasks st.2, Return (Some None)) ∧
  (∀ w t0, Task.heap w !! task = Some t0 →
     Task.missing_or_pickled w (Task._output_arg t0) →
     ∃ w' t', Task.task_finished task (Some e) w = (w', Return tt) ∧
              Task.heap w' !! task = Some t' ∧
              Task._finish_event t' = true ∧
              Task._error t' = Some (Some e)).
Proof.
  intros st Hin Ht Hfin Herr m'.
  assert (System.consistent st) as Hst
    by apply consistent_run_calls, consistent_init.
  split; [|split; [done|split; [|split]]].
  - rewrite (get_result_submitted _ _ _ _ Hst Hin Ht). by rewrite Hfin, Herr.
  - by intros [|fuel].
  - pose proof (System.queue_unlocked _ Hst) as Hq.
    subst m'. unfold System.exited. simpl.
    erewrite wait_pop_free; [|done..].
    by destruct (Master._queued_tasks st.2); simplify_eq/=.
  - intros w t0 Ht0 Hfile. rewrite (task_finished_effect _ _ _ _ Ht0 Hfile).
    eexists _, _. split; [reflexivity|]. split.
    + simpl. apply list_lookup_insert_eq. by eapply lookup_lt_Some.
    + done.
Qed.

Lemma get_result_reraises_task_error_witness :
  let st :=
    System.run_calls
      [System.Submit_task (Task.ExeStr "jobs/sum.py") VNone (Some "a");
       System.Task_finished 0 (Some (Exception_ "worker lost"))]
      (System.empty_world, Master.__init__ false) in
  let t :=
    Task.set_finish_event
      (Task.set_error (Some (Exception_ "worker lost"))
         (System.fresh_task "a" (Task.ExeStr "jobs/sum.py") VNone "tasks")) in
  (0 ∈ System.registry st ∧ Task.heap st.1 !! 0 = Some t ∧
   Task._finish_event t = true ∧
   Task._error t = Some (Some (Exception_ "worker lost"))) ∧
  Master.get_result (Some 0) true st =
    ((st.1, System.exited st.2), Raise (Exception_ "worker lost")).
Proof.
  intros st t.
  assert (0 ∈ System.registry st) as Hin
    by (apply (bool_decide_unpack _); vm_compute; exact I).
  assert (Task.heap st.1 !! 0 = Some t) as Ht by reflexivity.
  split; [done|].
  exact (proj1 (get_result_reraises_task_error System.empty_world false
                  [System.Submit_task (Task.ExeStr "jobs/sum.py") VNone (Some "a");
                   System.Task_finished 0 (Some (Exception_ "worker lost"))]
                  0 t (Exception_ "worker lost") true Hin Ht eq_refl eq_refl)).
Defined.

(** ** The Condor backend *)

Section CondorFacts.
Import Task Condor.
Implicit Types (st : Condor.state) (w : World) (task : nat).

(** Rendering and writing the job description touches neither the heap nor
    the interface, and it has read the task from the heap. *)
Lemma prepare_submission_frame st st1 task names :
  prepare_submission task st = (st1, Return names) →
  heap st1.1 = heap st.1 ∧ popen st1.1 = popen st.1 ∧
  st1.2 = st.2 ∧ is_Some (heap st.1 !! task).
Proof.
  destruct st as [w c]. unfold prepare_submission.
  unfold bind at 1. unfold bind at 1. unfold get, ret at 1. cbn [snd].
  unfold bind at 1. rewrite (on_fst_eq (deref task)).
  unfold deref at 1 2. destruct (heap w !! task) as [t|] eqn:Ht; [|done].
  cbn [fst snd]. unfold bind at 1. unfold bind at 1. unfold get, ret at 1.
  cbn [fst].
  destruct (_executable t) as [exe| |]; [|done..].
  destruct (split slash exe !! 1) as [exec_name|]; [|done].
  unfold bind at 1. rewrite on_fst_eq. cbn [fst snd].
  unfold bind at 1. rewrite on_fst_eq. cbn [fst snd].
  unfold bind at 1. rewrite on_fst_eq. unfold write_text.
  destruct (creatable _ _); [|done].
  intros [= <- <-]. by rewrite Ht.
Qed.

(** What the last statement of [execute_task] does when the submission
    fails: the completion callback, given an error, and nothing after it.
    An error that leaves the callback leaves [execute_task] as well. *)
Lemma submit_failure st task t err_file_name log_file_name submit_file_name cf :
  heap st.1 !! task = Some t →
  submission_fails (popen st.1 [_condor_submit_loc st.2; submit_file_name] cf) →
  ∃ msg,
    submit task (err_file_name, log_file_name, submit_file_name, cf) st =
      (((task_finished task (Some (Exception_ msg)) st.1).1, st.2),
       (task_finished task (Some (Exception_ msg)) st.1).2).
Proof.
  intros Ht Hfail. destruct st as [w c]. cbn [fst snd] in *.
  unfold submit. unfold bind at 1. unfold bind at 1. unfold get, ret at 1.
  cbn [snd]. unfold try_except. unfold bind at 1.
  rewrite on_fst_eq. unfold popen_communicate.
  destruct (popen w _ cf) as [msg|out err]; cbn [fst snd].
  - cbn [class_of]. eexists. rewrite on_fst_eq. reflexivity.
  - simpl in Hfail. destruct (String.eqb_spec err "") as [->|_]; [done|].
    cbn [negb]. eexists. rewrite on_fst_eq.
    destruct (missing_or_pickled_cases w (_output_arg t)) as [Hfile|[s Hfile]].
    + by rewrite !(task_finished_effect _ _ _ _ Ht Hfile).
    + rewrite !(task_finished_raises _ _ _ _ _ Ht Hfile). cbn [fst snd].
      by destruct s.
Qed.

End CondorFacts.

(** C6 fails on the program. Let [execute_task] of the Condor backend get
    as far as the submission and the submission fail -- [condor_submit]
    cannot be started, or it writes to its error stream -- while the output
    file of the task is there and holds no pickle. Then [execute_task] does
    call the completion callback with an error, but the callback raises the
    error of the unpickler before it sets the finish event, and neither
    [except OSError] catches that: [execute_task] raises instead of
    returning, the task carries the error of the submission and is as
    unfinished as it was, so that a caller waiting for it blocks, and the
    backend does not keep it among the jobs it polls. *)
Theorem failed_submission_leaves_task_unfinished (st st1 : Condor.state)
    (task : nat) (worker : unit) (t : Task.PyMW_Task) (out : string)
    (err_file_name log_file_name submit_file_name : string) (cf : Z) :
  Condor.prepare_submission task st =
    (st1, Return (err_file_name, log_file_name, submit_file_name, cf)) →
  Condor.submission_fails
    (Task.popen st1.1 [Condor._condor_submit_loc st1.2; submit_file_name] cf) →
  Task.heap st.1 !! task = Some t →
  Task.files st1.1 !! Task._output_arg t = Some (Task.Text out) →
  ∃ w' msg,
    Condor.execute_task task worker st = ((w', st.2), Raise (Task.load_error out)) ∧
    Task.heap w' !! task = Some (Task.set_error (Some (Exception_ msg)) t) ∧
    (Task._finish_event t = false →
     Task.is_task_finished task true w' = (w', Blocks)).
Proof.
  intros Hprep Hfail Ht Hfile.
  destruct (prepare_submission_frame _ _ _ _ Hprep) as (Hheap & _ & Hself & _).
  rewrite <- Hheap in Ht.
  destruct (submit_failure st1 task t err_file_name log_file_name
              submit_file_name cf Ht Hfail) as [msg Hsubmit].
  rewrite (task_finished_raises _ _ _ _ _ Ht Hfile) in Hsubmit.
  cbn [fst snd] in Hsubmit.
  eexists _, msg. split; [|split].
  - unfold Condor.execute_task, bind. by rewrite Hprep, Hsubmit, Hself.
  - simpl. apply list_lookup_insert_eq. by eapply lookup_lt_Some.
  - intros Hev. unfold Task.is_task_finished, bind, Task.deref. simpl.
    rewrite list_lookup_insert_eq by by eapply lookup_lt_Some.
    simpl. by rewrite Hev.
Qed.

(** A task is submitted under the name [a] while an empty [tasks/out_a.dat]
    is left from an earlier run, and [condor_submit] is not installed. *)
Lemma failed_submission_leaves_task_unfinished_witness :
  let w :=
    (System.run_calls
       [System.Write_file "tasks/out_a.dat" (Task.Text "");
        System.Submit_task (Task.ExeStr "jobs/sum.py") VNone (Some "a")]
       (System.empty_world, Master.__init__ false)).1 in
  let st := (w, Condor.__init__ "linux2" "" "") in
  let st1 := (Condor.prepare_submission 0 st).1 in
  let t := System.fresh_task "a" (Task.ExeStr "jobs/sum.py") VNone "tasks" in
  (Condor.prepare_submission 0 st =
     (st1, Return ("tasks/a.err", "tasks/a.log", "tasks/a_condor", 0%Z)) ∧
   Condor.submission_fails
     (Task.popen st1.1 [Condor._condor_submit_loc st1.2; "tasks/a_condor"] 0%Z) ∧
   Task.heap st.1 !! 0 = Some t ∧
   Task.files st1.1 !! Task._output_arg t = Some (Task.Text "")) ∧
  ∃ w' msg,
    Condor.execute_task 0 tt st = ((w', st.2), Raise (EOFError "")) ∧
    Task.heap w' !! 0 = Some (Task.set_error (Some (Exception_ msg)) t) ∧
    (Task._finish_event t = false →
     Task.is_task_finished 0 true w' = (w', Blocks)).
Proof.
  intros w st st1 t.
  assert (Condor.prepare_submission 0 st =
            (st1, Return ("tasks/a.err", "tasks/a.log", "tasks/a_condor", 0%Z)))
    as Hprep by (vm_compute; reflexivity).
  assert (Condor.submission_fails
            (Task.popen st1.1 [Condor._condor_submit_loc st1.2; "tasks/a_condor"] 0%Z))
    as Hfail by exact I.
  assert (Task.heap st.1 !! 0 = Some t) as Ht by reflexivity.
  assert (Task.files st1.1 !! Task._output_arg t = Some (Task.Text ""))
    as Hfile by (vm_compute; reflexivity).
  split; [done|].
  exact (failed_submission_leaves_task_unfinished st st1 0 tt t ""
           "tasks/a.err" "tasks/a.log" "tasks/a_condor" 0%Z Hprep Hfail Ht Hfile).
Defined.

(** X15. When the submission fails while the output file of the task is
    missing or holds a pickled object, [execute_task] calls the completion
    callback with an error and then returns; the task is finished, it
    carries the error, and the backend does not keep it among the jobs it
    polls. *)
Lemma failed_submission_finishes_task_with_loadable_output
    (st st1 : Condor.state) (task : nat) (worker : unit) (t : Task.PyMW_Task)
    (err_file_name log_file_name submit_file_name : string) (cf : Z) :
  Condor.prepare_submission task st =
    (st1, Return (err_file_name, log_file_name, submit_file_name, cf)) →
  Condor.submission_fails
    (Task.popen st1.1 [Condor._condor_submit_loc st1.2; submit_file_name] cf) →
  Task.heap st.1 !! task = Some t →
  Task.missing_or_pickled st1.1 (Task._output_arg t) →
  ∃ w' t' msg,
    Condor.execute_task task worker st = ((w', st.2), Return tt) ∧
    Task.task_finished task (Some (Exception_ msg)) st1.1 = (w', Return tt) ∧
    Task.heap w' !! task = Some t' ∧
    Task._finish_event t' = true ∧
    Task._error t' = Some (Some (Exception_ msg)).
Proof.
  intros Hprep Hfail Ht Hfile.
  destruct (prepare_submission_frame _ _ _ _ Hprep) as (Hheap & _ & Hself & _).
  rewrite <- Hheap in Ht.
  destruct (submit_failure st1 task t err_file_name log_file_name
              submit_file_name cf Ht Hfail) as [msg Hsubmit].
  rewrite (task_finished_effect _ _ _ _ Ht Hfile) in Hsubmit.
  cbn [fst snd] in Hsubmit.
  eexists _, _, msg. split; [|split; [|split]].
  - unfold Condor.execute_task, bind. by rewrite Hprep, Hsubmit, Hself.
  - by rewrite (task_finished_effect _ _ _ _ Ht Hfile).
  - simpl. apply list_lookup_insert_eq. by eapply lookup_lt_Some.
  - done.
Qed.

(** [condor_submit] is not installed, and no output file is there. *)
Lemma failed_submission_finishes_task_with_loadable_output_witness :
  let w :=
    (System.run_calls
       [System.Submit_task (Task.ExeStr "jobs/sum.py") VNone (Some "a")]
       (System.empty_world, Master.__init__ false)).1 in
  let st := (w, Condor.__init__ "linux2" "" "") in
  let st1 := (Condor.prepare_submission 0 st).1 in
  let t := System.fresh_task "a" (Task.ExeStr "jobs/sum.py") VNone "tasks" in
  (Condor.prepare_submission 0 st =
     (st1, Return ("tasks/a.err", "tasks/a.log", "tasks/a_condor", 0%Z)) ∧
   Condor.submission_fails
     (Task.popen st1.1 [Condor._condor_submit_loc st1.2; "tasks/a_condor"] 0%Z) ∧
   Task.heap st.1 !! 0 = Some t ∧
   Task.missing_or_pickled st1.1 (Task._output_arg t)) ∧
  ∃ w' t' msg,
    Condor.execute_task 0 tt st = ((w', st.2), Return tt) ∧
    Task.task_finished 0 (Some (Exception_ msg)) st1.1 = (w', Return tt) ∧
    Task.heap w' !! 0 = Some t' ∧
    Task._finish_event t' = true ∧
    Task._error t' = Some (Some (Exception_ msg)).
Proof.
  intros w st st1 t.
  assert (Condor.prepare_submission 0 st =
            (st1, Return ("tasks/a.err", "tasks/a.log", "tasks/a_condor", 0%Z)))
    as Hprep by (vm_compute; reflexivity).
  assert (Condor.submission_fails
            (Task.popen st1.1 [Condor._condor_submit_loc st1.2; "tasks/a_condor"] 0%Z))
    as Hfail by exact I.
  assert (Task.heap st.1 !! 0 = Some t) as Ht by reflexivity.
  assert (Task.missing_or_pickled st1.1 (Task._output_arg t)) as Hfile
    by (vm_compute; exact I).
  split; [exact (conj Hprep (conj Hfail (conj Ht Hfile)))|].
  exact (failed_submission_finishes_task_with_loadable_output st st1 0 tt t
           "tasks/a.err" "tasks/a.log" "tasks/a_condor" 0%Z
           Hprep Hfail Ht Hfile).
Defined.

(** [condor_submit] runs and complains on its error stream; no output file
    is there. *)
Lemma failed_submission_with_error_stream :
  let w :=
    (System.run_calls
       [System.Submit_task (Task.ExeStr "jobs/sum.py") VNone (Some "a")]
       (System.empty_world, Master.__init__ false)).1 in
  let w_condor :=
    {| Task.heap := Task.heap w; Task.files := Task.files w;
       Task.creatable := Task.creatable w;
       Task.cwd := Task.cwd w; Task.platform := Task.platform w;
       Task.popen := λ _ _, Task.Popen_done "" "ERROR: no schedd" |} in
  let r := Condor.execute_task 0 tt (w_condor, Condor.__init__ "linux2" "" "") in
  r.2 = Return tt ∧
  r.1.2 = Condor.__init__ "linux2" "" "" ∧
  (Task._finish_event <$> Task.heap r.1.1 !! 0) = Some true ∧
  (Task._error <$> Task.heap r.1.1 !! 0) =
    Some (Some (Some (Exception_
      ("condor_submit failed with error:" +:+ Condor.nl +:+ "ERROR: no schedd")))).
Proof.
  vm_compute. done.
Qed.

(** * Further properties of the program *)

(** ** The synchronised list *)

Section SyncListMore.
Import SyncList.
Context {A : Type}.
Implicit Types (q : _SyncList A) (p : pc A) (s : system A).

Lemma count_eqb_member (eqb : A → A → bool) (l : list A) (item : A) :
  (∀ x y, eqb x y = true ↔ x = y) →
  length (filter (λ x, eqb x item = true) l) ≠ 0 ↔ item ∈ l.
Proof.
  intros Heqb. induction l as [|x l IH]; simpl.
  - split; [done|]. intros H. by apply elem_of_nil in H.
  - rewrite filter_cons. destruct (decide (eqb x item = true)) as [Heq|Hne].
    + apply Heqb in Heq as ->. simpl. split; [|done]. intros _. by left.
    + rewrite IH. split; [by right|].
      intros [->|H]%elem_of_cons; [|done]. destruct Hne. by apply Heqb.
Qed.

Lemma contains_unlocked q (eqb : A → A → bool) (item : A) :
  _lock q = false →
  contains eqb item q =
    (q, Return (bool_decide
                  (length (filter (λ x, eqb x item = true) (_list q)) ≠ 0))).
Proof.
  intros Hq. unfold contains, list_count, bind, lock_acquire, lock_release,
    get, ret.
  rewrite Hq. simpl.
  assert ({| _lock := false; _sem := _sem q; _list := _list q |} = q) as ->
    by (by destruct q; simplify_eq/=).
  destruct (decide _) as [Hn|Hn].
  - by rewrite bool_decide_eq_true_2.
  - by rewrite bool_decide_eq_false_2.
Qed.

Lemma iterate_free q fuel pos :
  _lock q = false → length (_list q) - pos < fuel →
  iterate fuel pos q = (q, Return (drop pos (_list q))).
Proof.
  intros Hq. revert pos. induction fuel as [|fuel IH]; intros pos Hfuel; [lia|].
  simpl. unfold bind at 1. rewrite iter_next_free by done.
  destruct (_list q !! pos) as [x|] eqn:Hpos.
  - rewrite (drop_S _ _ _ Hpos). unfold bind at 1.
    rewrite IH; [done|]. apply lookup_lt_Some in Hpos. lia.
  - apply lookup_ge_None in Hpos. by rewrite drop_ge.
Qed.

(** Between the calls of a single caller the lock is free and the count of
    the semaphore is the number of items. *)
Lemma invoke_balanced (m : method A) q :
  _lock q = false → _sem q = length (_list q) →
  _lock (invoke m q) = false ∧ _sem (invoke m q) = length (_list (invoke m q)).
Proof.
  intros Hq Hs. destruct m as [item| | |eqb item]; simpl.
  - rewrite append_free by done. simpl. rewrite length_app. simpl. lia.
  - destruct (pop_last (_list q)) as [[x l]|] eqn:Hpop.
    + apply pop_last_inv in Hpop. rewrite Hpop, length_app in Hs. simpl in Hs.
      rewrite Nat.add_1_r in Hs.
      rewrite (wait_pop_free q (length l) l x Hq Hs Hpop). done.
    + apply pop_last_nil in Hpop. rewrite Hpop in Hs. simpl in Hs.
      rewrite wait_pop_empty_sem by done. simpl. split; [done|]. by rewrite Hpop.
  - by rewrite len_free.
  - by rewrite contains_unlocked.
Qed.

Lemma invoke_all_balanced (ms : list (method A)) q :
  _lock q = false → _sem q = length (_list q) →
  _lock (invoke_all ms q) = false ∧
  _sem (invoke_all ms q) = length (_list (invoke_all ms q)).
Proof.
  revert q. induction ms as [|m ms IH]; intros q Hq Hs; simpl; [done|].
  destruct (invoke_balanced m q Hq Hs). by apply IH.
Qed.

Lemma sum_list_with_two {B} (f : B → nat) (l : list B) i j x y :
  i ≠ j → l !! i = Some x → l !! j = Some y →
  f x + f y ≤ sum_list_with f l.
Proof.
  revert i j. induction l as [|z l IH]; intros [|i] [|j] Hij Hi Hj;
    simplify_eq/=.
  - apply (sum_list_with_lookup f) in Hj. lia.
  - apply (sum_list_with_lookup f) in Hi. lia.
  - assert (i ≠ j) as Hij' by congruence.
    pose proof (IH i j Hij' Hi Hj). lia.
Qed.

Lemma sum_list_with_pos {B} (f : B → nat) (l : list B) :
  0 < sum_list_with f l → ∃ i x, l !! i = Some x ∧ 0 < f x.
Proof.
  induction l as [|z l IH]; simpl; [lia|]. intros H.
  destruct (decide (0 < f z)) as [Hz|Hz].
  - by exists 0, z.
  - destruct IH as (i & x & Hi & Hx); [lia|]. by exists (S i), x.
Qed.

(** A thread inside a critical section can always execute its statement. *)
Lemma advance_in_critical_section p q :
  holds_lock p = 1 → _lock q = true → is_Some (advance p q).
Proof.
  intros Hp Hq. destruct p; simpl in Hp; try done;
    unfold advance, lock_release, list_append, sem_release, list_pop,
      list_len, list_count, modify, bind, get, ret;
    rewrite ?Hq; simpl; try (by eexists).
  destruct (pop_last (_list q)) as [[x r]|]; by eexists.
Qed.

(** With the lock free, a thread that is not quiet and is not inside a
    critical section can execute its statement. *)
Lemma advance_outside_critical_section p q :
  quiet (_sem q) p = false → holds_lock p = 0 → sound p → _lock q = false →
  is_Some (advance p q).
Proof.
  intros Hp Hh Hs Hq. destruct p; simpl in *; try done;
    unfold lock_acquire, sem_acquire; rewrite ?Hq; try (by eexists).
  destruct (_sem q); [done|]. by eexists.
Qed.

End SyncListMore.

(** X1. [contains(item)] answers [True] exactly when the item is in the
    list, for items that [==] compares by equality, and it leaves the object
    as it was. *)
Theorem contains_tells_membership {A} (q : SyncList._SyncList A)
    (eqb : A → A → bool) (item : A) :
  SyncList._lock q = false →
  (∀ x y, eqb x y = true ↔ x = y) →
  ∃ b, SyncList.contains eqb item q = (q, Return b) ∧
       (b = true ↔ item ∈ SyncList._list q).
Proof.
  intros Hq Heqb. eexists. split; [by apply contains_unlocked|].
  rewrite bool_decide_eq_true. by apply count_eqb_member.
Qed.

Lemma contains_tells_membership_witness :
  let q := (SyncList.append_all [3; 1; 4] SyncList.__init__).1 in
  (SyncList._lock q = false ∧ ∀ x y, Nat.eqb x y = true ↔ x = y) ∧
  ∃ b, SyncList.contains Nat.eqb 1 q = (q, Return b) ∧
       (b = true ↔ 1 ∈ SyncList._list q).
Proof.
  intros q. split; [split; [reflexivity|apply Nat.eqb_eq]|].
  apply (contains_tells_membership q Nat.eqb 1); [reflexivity|apply Nat.eqb_eq].
Defined.

(** X2. A [for] loop over the object visits the items of the list in the
    order in which they were appended and then stops; it leaves the object
    as it was. One call of [next] more than there are items is enough. *)
Theorem iteration_visits_list_in_order {A} (q : SyncList._SyncList A)
    (fuel : nat) :
  SyncList._lock q = false →
  length (SyncList._list q) < fuel →
  SyncList.iterate fuel 0 q = (q, Return (SyncList._list q)).
Proof.
  intros Hq Hfuel. rewrite iterate_free by (done || lia). by rewrite drop_0.
Qed.

Lemma iteration_visits_list_in_order_witness :
  let q := (SyncList.append_all [3; 1; 4] SyncList.__init__).1 in
  (SyncList._lock q = false ∧ length (SyncList._list q) < 4) ∧
  SyncList.iterate 4 0 q = (q, Return (SyncList._list q)).
Proof.
  intros q. split; [split; [reflexivity|simpl; lia]|].
  apply (iteration_visits_list_in_order q 4); [reflexivity|simpl; lia].
Defined.

(** X3. Whatever calls a single caller has made on a new list, the lock is
    free again, the count of the semaphore is the number of items, and the
    next [wait_pop] blocks if the list is empty and otherwise returns its
    last item and removes it; it never returns the [None] of its [except]
    branch. *)
Theorem wait_pop_blocks_exactly_on_empty_list {A}
    (ms : list (SyncList.method A)) :
  let q := SyncList.invoke_all ms SyncList.__init__ in
  SyncList._lock q = false ∧
  SyncList._sem q = length (SyncList._list q) ∧
  match SyncList.pop_last (SyncList._list q) with
  | None => SyncList.wait_pop q = (q, Blocks)
  | Some (item, rest) =>
      ∃ q', SyncList.wait_pop q = (q', Return (Some item)) ∧
            SyncList._list q' = rest ∧
            SyncList._sem q' = length rest ∧ SyncList._lock q' = false
  end.
Proof.
  intros q.
  destruct (invoke_all_balanced ms SyncList.__init__) as [Hq Hs]; [done..|].
  fold q in Hq, Hs. split; [done|]. split; [done|].
  destruct (SyncList.pop_last (SyncList._list q)) as [[x l]|] eqn:Hpop.
  - apply pop_last_inv in Hpop. rewrite Hpop, length_app in Hs. simpl in Hs.
    rewrite Nat.add_1_r in Hs.
    rewrite (wait_pop_free q (length l) l x Hq Hs Hpop). by eexists.
  - apply pop_last_nil in Hpop. rewrite Hpop in Hs. simpl in Hs.
    by apply wait_pop_empty_sem.
Qed.

(** X4. Under any interleaving at most one thread is inside a critical
    section, between [self._lock.acquire()] and [self._lock.release()] of a
    method, and while one is there the lock is taken. *)
Theorem critical_sections_exclude_each_other {A} (threads : nat)
    (sched : list (SyncList.action A)) (s : SyncList.system A)
    (t1 t2 : nat) (p1 p2 : SyncList.pc A) :
  SyncList.run sched (SyncList.boot threads) = Some s →
  SyncList.pcs s !! t1 = Some p1 → SyncList.holds_lock p1 = 1 →
  SyncList.pcs s !! t2 = Some p2 → SyncList.holds_lock p2 = 1 →
  t1 = t2 ∧ SyncList._lock (SyncList.obj s) = true.
Proof.
  intros Hrun H1 Hp1 H2 Hp2.
  destruct (invariant_run _ _ _ Hrun (invariant_boot threads))
    as [_ Hlock _ _ _].
  split.
  - destruct (decide (t1 = t2)) as [|Hne]; [done|].
    pose proof (sum_list_with_two SyncList.holds_lock _ _ _ _ _ Hne H1 H2).
    destruct (SyncList._lock (SyncList.obj s)); lia.
  - pose proof (sum_list_with_lookup SyncList.holds_lock _ _ _ H1).
    destruct (SyncList._lock (SyncList.obj s)); [done|lia].
Qed.

(** Thread 0 is inside [append] while thread 1 waits for the lock. *)
Lemma critical_sections_exclude_each_other_witness :
  let sched :=
    [SyncList.Call_append 0 5; SyncList.Call_append 1 6; SyncList.Step 0] in
  let s :=
    {| SyncList.obj := {| SyncList._lock := true; SyncList._sem := 0;
                          SyncList._list := [] |};
       SyncList.pcs := [SyncList.Append_list 5; SyncList.Append_lock 6];
       SyncList.appended := [5; 6];
       SyncList.returned := [] |} in
  SyncList.run sched (SyncList.boot 2) = Some s ∧
  (0 = 0 ∧ SyncList._lock (SyncList.obj s) = true).
Proof.
  intros sched s. split; [reflexivity|].
  apply (critical_sections_exclude_each_other 2 sched s 0 0
           (SyncList.Append_list 5) (SyncList.Append_list 5)); reflexivity.
Defined.

(** X5. Under any interleaving no exception ever leaves a method: the lock
    is only released by the thread that took it, so [release] never fails,
    and the [IndexError] of a pop from an empty list never arises. *)
Theorem no_method_ever_raises {A} (threads : nat)
    (sched : list (SyncList.action A)) (s : SyncList.system A) :
  SyncList.run sched (SyncList.boot threads) = Some s →
  (∀ t e, SyncList.pcs s !! t ≠ Some (SyncList.Crashed e)) ∧
  (∀ t p, SyncList.pcs s !! t = Some p → SyncList.holds_lock p = 1 →
          ∃ q' o, SyncList.lock_release (SyncList.obj s) = (q', Return o)) ∧
  (∀ t, SyncList.pcs s !! t = Some SyncList.Pop_list →
        ∃ q' item, SyncList.list_pop (SyncList.obj s) = (q', Return item)).
Proof.
  intros Hrun.
  destruct (invariant_run _ _ _ Hrun (invariant_boot threads))
    as [Hcount Hlock Hthr _ _].
  split; [|split].
  - intros t e Ht. by apply Hthr in Ht.
  - intros t p Ht Hp.
    pose proof (sum_list_with_lookup SyncList.holds_lock _ _ _ Ht).
    unfold SyncList.lock_release.
    destruct (SyncList._lock (SyncList.obj s)); [by eexists _, _|lia].
  - intros t Ht. unfold SyncList.list_pop.
    destruct (SyncList.pop_last _) as [[x r]|] eqn:Hpop; [by eexists _, _|].
    apply pop_last_nil in Hpop. rewrite Hpop in Hcount. simpl in Hcount.
    apply (sum_list_with_lookup SyncList.credit) in Ht. simpl in Ht. lia.
Qed.

Lemma no_method_ever_raises_witness :
  let sched :=
    [SyncList.Call_wait_pop 1; SyncList.Call_append 0 5;
     SyncList.Step 0; SyncList.Step 0; SyncList.Step 0; SyncList.Step 1;
     SyncList.Step 0; SyncList.Step 1] in
  let s :=
    {| SyncList.obj := {| SyncList._lock := true; SyncList._sem := 0;
                          SyncList._list := [5] |};
       SyncList.pcs := [SyncList.Idle; SyncList.Pop_list];
       SyncList.appended := [5];
       SyncList.returned := [] |} in
  SyncList.run sched (SyncList.boot 2) = Some s ∧
  ∃ q' item, SyncList.list_pop (SyncList.obj s) = (q', Return item).
Proof.
  intros sched s. split; [reflexivity|].
  apply (proj2 (proj2 (no_method_ever_raises 2 sched s eq_refl)) 1).
  reflexivity.
Defined.

(** X6. The list never deadlocks: in every state that concurrent callers
    can reach, either some thread can execute its next statement, or every
    thread is between two calls or waits in [wait_pop] for the semaphore
    while its count is zero -- and then the list is empty. *)
Theorem only_consumers_of_an_empty_list_wait {A} (threads : nat)
    (sched : list (SyncList.action A)) (s : SyncList.system A) :
  SyncList.run sched (SyncList.boot threads) = Some s →
  (∃ t s', SyncList.exec (SyncList.Step t) s = Some s') ∨
  ((∀ t p, SyncList.pcs s !! t = Some p →
           p = SyncList.Idle ∨
           (p = SyncList.Pop_sem ∧ SyncList._sem (SyncList.obj s) = 0)) ∧
   ((∃ t, SyncList.pcs s !! t = Some SyncList.Pop_sem) →
    SyncList._list (SyncList.obj s) = [])).
Proof.
  intros Hrun.
  destruct (invariant_run _ _ _ Hrun (invariant_boot threads))
    as [Hcount Hlock Hthr _ _].
  assert (∀ t p, SyncList.pcs s !! t = Some p →
                 is_Some (SyncList.advance p (SyncList.obj s)) →
                 ∃ t s', SyncList.exec (SyncList.Step t) s = Some s') as Hstep.
  { intros t p Ht [[[p' q'] res] Hadv]. exists t. simpl. rewrite Ht, Hadv.
    by eexists. }
  destruct (SyncList._lock (SyncList.obj s)) eqn:Hlk.
  - left. destruct (sum_list_with_pos SyncList.holds_lock (SyncList.pcs s))
      as (t & p & Ht & Hp); [lia|].
    apply (Hstep t p Ht). apply advance_in_critical_section; [|done].
    clear -Hp. destruct p; simpl in *; lia.
  - destruct (decide (Forall (λ p, SyncList.quiet (SyncList._sem (SyncList.obj s)) p = true)
                        (SyncList.pcs s))) as [Hall|Hnot].
    + right. rewrite Forall_lookup in Hall.
      assert (∀ t p, SyncList.pcs s !! t = Some p →
                p = SyncList.Idle ∨
                (p = SyncList.Pop_sem ∧ SyncList._sem (SyncList.obj s) = 0))
        as Hquiet.
      { intros t p Ht. specialize (Hall t p Ht).
        destruct p; simpl in Hall; try done; [by left|right].
        by apply bool_decide_eq_true in Hall. }
      split; [done|]. intros [t Ht].
      destruct (Hquiet t _ Ht) as [|[_ Hsem]]; [done|].
      apply length_zero_iff_nil.
      destruct (decide (0 < sum_list_with SyncList.credit (SyncList.pcs s)))
        as [Hpos|]; [|lia].
      apply sum_list_with_pos in Hpos as (t' & p' & Ht' & Hp').
      destruct (Hquiet t' p' Ht') as [->|[-> _]]; simpl in Hp'; lia.
    + left. apply not_Forall_Exists in Hnot; [|apply _].
      apply Exists_exists in Hnot as (p & Hin & Hp).
      apply list_elem_of_lookup in Hin as [t Ht].
      apply (Hstep t p Ht). apply not_true_is_false in Hp.
      apply advance_outside_critical_section; [done| |by eapply Hthr|done].
      pose proof (sum_list_with_lookup SyncList.holds_lock _ _ _ Ht).
      lia.
Qed.

(** Two consumers wait, and the list is empty. *)
Lemma only_consumers_of_an_empty_list_wait_witness :
  let sched := [SyncList.Call_wait_pop 0; SyncList.Call_wait_pop 1] in
  let s :=
    {| SyncList.obj := @SyncList.__init__ nat;
       SyncList.pcs := [SyncList.Pop_sem; SyncList.Pop_sem];
       SyncList.appended := [];
       SyncList.returned := [] |} in
  SyncList.run sched (SyncList.boot 2) = Some s ∧
  ((∃ t s', SyncList.exec (SyncList.Step t) s = Some s') ∨
   ((∀ t p, SyncList.pcs s !! t = Some p →
            p = SyncList.Idle ∨
            (p = SyncList.Pop_sem ∧ SyncList._sem (SyncList.obj s) = 0)) ∧
    ((∃ t, SyncList.pcs s !! t = Some SyncList.Pop_sem) →
     SyncList._list (SyncList.obj s) = []))).
Proof.
  intros sched s. split; [reflexivity|].
  apply (only_consumers_of_an_empty_list_wait 2 sched s). reflexivity.
Defined.


(** Three threads: two appenders and a consumer that is served twice. *)
Lemma completed_calls_conserve_items_witness :
  let sched :=
    SyncList.solo_append 0 5 ++
    [SyncList.Call_append 1 6; SyncList.Call_wait_pop 2; SyncList.Step 2;
     SyncList.Step 1; SyncList.Step 1; SyncList.Step 1; SyncList.Step 1;
     SyncList.Step 2; SyncList.Step 2; SyncList.Step 2] ++
    SyncList.solo_wait_pop 2 in
  let s :=
    {| SyncList.obj := @SyncList.__init__ nat;
       SyncList.pcs := [SyncList.Idle; SyncList.Idle; SyncList.Idle];
       SyncList.appended := [5; 6];
       SyncList.returned := [Some 6; Some 5] |} in
  (SyncList.run sched (SyncList.boot 3) = Some s ∧
   Forall (λ p, p = SyncList.Idle) (SyncList.pcs s)) ∧
  SyncList.appended s ≡ₚ
    SyncList._list (SyncList.obj s) ++ omap id (SyncList.returned s) ∧
  (length (SyncList.returned s) = length (SyncList.appended s) →
   SyncList._list (SyncList.obj s) = [] ∧
   Some <$> SyncList.appended s ≡ₚ SyncList.returned s).
Proof.
  intros sched s.
  assert (SyncList.run sched (SyncList.boot 3) = Some s) as Hrun by (vm_compute; reflexivity).
  assert (Forall (λ p, p = SyncList.Idle) (SyncList.pcs s)) as Hidle
    by (repeat constructor).
  split; [exact (conj Hrun Hidle)|].
  exact (completed_calls_conserve_items 3 sched s Hrun Hidle).
Defined.

(** ** Task objects *)

(** X8. [PyMW_Task(...)] given a script name or a function, and an input
    file it can write, returns a new object on the heap: a task that is not
    finished, has no output and no error yet, and whose input file holds
    the pickle of its input data, so that unpickling it gives the input
    back. *)
Theorem constructor_pickles_input (w : Task.World) (task_name : string)
    (executable_ : Task.executable) (input_data : value)
    (input_arg output_arg : option string) (file_loc : string) :
  let path :=
    if Task.truthy input_arg then default "" input_arg
    else file_loc +:+ "/in_" +:+ task_name +:+ ".dat" in
  (∀ repr, executable_ ≠ Task.ExeOther repr) →
  Task.creatable w path = true →
  ∃ w' t,
    Task.__init__ task_name executable_ input_data input_arg output_arg
      file_loc w = (w', Return (length (Task.heap w))) ∧
    Task.heap w' = Task.heap w ++ [t] ∧
    Task._task_name t = task_name ∧
    Task._executable t = executable_ ∧
    Task._input_arg t = path ∧
    Task._output_data t = VNone ∧
    Task._finish_event t = false ∧
    Task._error t = None ∧
    Task.unpickle_from path w' = (w', Return input_data).
Proof.
  intros path Hexe Hpath. unfold Task.__init__.
  destruct executable_ as [exe|repr|repr]; [| |by destruct (Hexe repr)].
  all: fold path; unfold bind, Task.pickle_to, get, put, ret; rewrite Hpath.
  all: eexists _, _; split; [reflexivity|]; simpl; repeat split.
  all: unfold Task.unpickle_from; simpl; by rewrite lookup_insert_eq.
Qed.

Lemma constructor_pickles_input_witness :
  let w := System.empty_world in
  ((∀ repr, Task.ExeStr "jobs/sum.py" ≠ Task.ExeOther repr) ∧
   Task.creatable w "tasks/in_a.dat" = true) ∧
  ∃ w' t,
    Task.__init__ "a" (Task.ExeStr "jobs/sum.py") (VList [VInt 1; VInt 2])
      None None "tasks" w = (w', Return 0) ∧
    Task.heap w' = [t] ∧
    Task._task_name t = "a" ∧
    Task._executable t = Task.ExeStr "jobs/sum.py" ∧
    Task._input_arg t = "tasks/in_a.dat" ∧
    Task._output_data t = VNone ∧
    Task._finish_event t = false ∧
    Task._error t = None ∧
    Task.unpickle_from "tasks/in_a.dat" w' = (w', Return (VList [VInt 1; VInt 2])).
Proof.
  intros w.
  assert (∀ repr, Task.ExeStr "jobs/sum.py" ≠ Task.ExeOther repr) as Hexe
    by discriminate.
  assert (Task.creatable w "tasks/in_a.dat" = true) as Hpath by reflexivity.
  split; [exact (conj Hexe Hpath)|].
  exact (constructor_pickles_input w "a" (Task.ExeStr "jobs/sum.py")
           (VList [VInt 1; VInt 2]) None None "tasks" Hexe Hpath).
Defined.



(** ** The scheduler *)

(** X10. The loop of the scheduler hands the queued tasks to the backend
    latest first: on a queue of [n] tasks its first [n] turns dispatch the
    tasks in the reverse of the order in which they were queued and leave
    the queue empty, and the turn after that waits for the next
    submission. *)
Theorem scheduler_dispatches_latest_first (s : Scheduler.PyMW_Scheduler)
    (q : SyncList._SyncList (option nat)) (tasks : list nat) :
  Scheduler._finished s = false →
  SyncList._lock q = false →
  SyncList._sem q = length tasks →
  SyncList._list q = Some <$> tasks →
  let empty :=
    {| SyncList._lock := false; SyncList._sem := 0; SyncList._list := [] |} in
  Scheduler._scheduler (length tasks) (s, q) = ((s, empty), Return (reverse tasks)) ∧
  Scheduler._scheduler (S (length tasks)) (s, q) = ((s, empty), Blocks).
Proof.
  intros Hs. revert q.
  induction tasks as [|x tasks IH] using rev_ind; intros q Hq Hsem Hl empty.
  - assert (q = empty) as -> by (destruct q; by simplify_eq/=).
    split; [done|]. cbn [Scheduler._scheduler length]. unfold bind at 1.
    unfold get. cbn [fst snd]. rewrite Hs. unfold bind at 1.
    unfold on_snd at 1. cbn [fst snd]. by rewrite wait_pop_empty_sem.
  - rewrite length_app in Hsem |- *. cbn [length] in Hsem |- *.
    rewrite Nat.add_1_r in Hsem |- *.
    rewrite fmap_app in Hl. cbn [fmap list_fmap] in Hl.
    pose proof (wait_pop_free q (length tasks) (Some <$> tasks) (Some x)
                  Hq Hsem Hl) as Hpop.
    destruct (IH {| SyncList._lock := false; SyncList._sem := length tasks;
                    SyncList._list := Some <$> tasks |}) as [IH1 IH2];
      [done..|].
    assert (∀ fuel,
      Scheduler._scheduler (S fuel) (s, q) =
        (rest <- Scheduler._scheduler fuel ;; ret (x :: rest))
          (s, {| SyncList._lock := false; SyncList._sem := length tasks;
                 SyncList._list := Some <$> tasks |})) as Hturn.
    { intros fuel. cbn [Scheduler._scheduler]. unfold bind at 1. unfold get.
      cbn [fst snd]. rewrite Hs. unfold bind at 1. unfold on_snd at 1.
      cbn [fst snd]. by rewrite Hpop. }
    rewrite !Hturn. unfold bind. rewrite IH1, IH2.
    by rewrite reverse_snoc.
Qed.

(** Two tasks are submitted and the scheduler makes two turns. *)
Lemma scheduler_dispatches_latest_first_witness :
  let st :=
    System.run_calls
      [System.Submit_task (Task.ExeStr "jobs/sum.py") (VInt 1) None;
       System.Submit_task (Task.ExeStr "jobs/sum.py") (VInt 2) None]
      (System.empty_world, Master.__init__ false) in
  let s := Master._scheduler st.2 in
  let q := Master._queued_tasks st.2 in
  (Scheduler._finished s = false ∧ SyncList._lock q = false ∧
   SyncList._sem q = length [0; 1] ∧ SyncList._list q = Some <$> [0; 1]) ∧
  (Scheduler._scheduler 2 (s, q)).2 = Return [1; 0].
Proof.
  intros st s q.
  assert (Scheduler._finished s = false) as Hs by reflexivity.
  assert (SyncList._lock q = false) as Hq by reflexivity.
  assert (SyncList._sem q = length [0; 1]) as Hsem by reflexivity.
  assert (SyncList._list q = Some <$> [0; 1]) as Hl by reflexivity.
  split; [exact (conj Hs (conj Hq (conj Hsem Hl)))|].
  destruct (scheduler_dispatches_latest_first s q [0; 1] Hs Hq Hsem Hl)
    as [Hrun _].
  exact (f_equal snd Hrun).
Defined.

(** ** The Master *)

Section MasterMore.
Import SyncList Task Scheduler Master System.
Implicit Types (w : World) (m : PyMW_Master) (st : state) (r task : ref).

(** A task of the registry that has finished has had its error assigned:
    the callback assigns it before anything else. *)
Lemma error_assigned_perform c st :
  consistent st →
  (∀ r t, r ∈ registry st → heap st.1 !! r = Some t →
          _finish_event t = true → is_Some (_error t)) →
  ∀ r t, r ∈ registry (perform c st) → heap (perform c st).1 !! r = Some t →
         _finish_event t = true → is_Some (_error t).
Proof.
  intros Hst H.
  destruct c as [exe d n|task wait| |task task_err|path f]; cbn [perform].
  - rewrite submit_task_run. destruct st as [w m].
    pose proof (consistent_counted w m n Hst) as Hst'.
    rewrite submit_named_run by done. cbn [fst snd].
    assert (∀ r t, r ∈ registry (w, counted n m) → heap w !! r = Some t →
                   _finish_event t = true → is_Some (_error t)) as H'.
    { intros r t Hr. apply H. unfold registry, counted in *.
      by destruct (negb _). }
    destruct (if _use_state_records _ then _ else _) as [task|]; [exact H'|].
    destruct exe as [exe|repr|repr]; [| |exact H'].
    all: cbn zeta; destruct (creatable w _); [|exact H'].
    all: unfold registry; cbn [fst snd enlisted set_queued_tasks
           set_submitted_tasks _submitted_tasks _list heap set_heap].
    all: intros r t [Hr| ->%list_elem_of_singleton]%elem_of_app;
           [|rewrite list_lookup_middle by done; by intros [= <-]].
    all: pose proof (registry_allocated _ Hst' r Hr) as Hlt.
    all: rewrite lookup_app_l by done; by apply H'.
  - by destruct (get_result_state st task wait Hst) as [-> | ->].
  - destruct st as [w m].
    by destruct (on_scheduler_keeps (Scheduler._scheduler 1) w m) as (s & q & ->).
  - destruct st as [w m]. rewrite on_world_eq. cbn [fst snd].
    destruct (task_finished_heap w task task_err) as (t' & -> & Ht').
    unfold registry in *. cbn [fst snd] in *. intros r t Hr.
    intros [(-> & <- & Hlt)|[_ Hold]]%list_lookup_insert_Some; [|by eauto].
    destruct (lookup_lt_is_Some_2 _ _ Hlt) as [t0 Ht0].
    destruct (Ht' t0 Ht0) as (_ & -> & _). by eauto.
  - done.
Qed.

Lemma error_assigned_run_calls calls st :
  consistent st →
  (∀ r t, r ∈ registry st → heap st.1 !! r = Some t →
          _finish_event t = true → is_Some (_error t)) →
  ∀ r t, r ∈ registry (run_calls calls st) →
         heap (run_calls calls st).1 !! r = Some t →
         _finish_event t = true → is_Some (_error t).
Proof.
  revert st. induction calls as [|c calls IH]; intros st Hst H; simpl; [done|].
  apply IH; [by apply consistent_perform|by apply error_assigned_perform].
Qed.

End MasterMore.

(** X11. [get_result] for a task of the registry ends in one of four ways
    and in no other: while the task is not finished it returns
    [(None, None)] when told not to wait and blocks otherwise; once the task
    has finished it raises the error of the task, or returns the task with
    its output when there is none. It never fails for want of the
    attribute [_error]. *)
Theorem get_result_of_submitted_task (w0 : Task.World)
    (use_state_records : bool) (calls : list System.call)
    (task : nat) (wait : bool) :
  let st := System.run_calls calls (w0, Master.__init__ use_state_records) in
  task ∈ System.registry st →
  ∃ t, Task.heap st.1 !! task = Some t ∧
    Master.get_result (Some task) wait st =
      if Task._finish_event t then
        match Task._error t with
        | Some (Some e) => ((st.1, System.exited st.2), Raise e)
        | _ => (st, Return (Some task, Task._output_data t))
        end
      else if wait then (st, Blocks)
      else (st, Return (None, VNone)).
Proof.
  intros st Hin.
  assert (System.consistent st) as Hst
    by apply consistent_run_calls, consistent_init.
  destruct (lookup_lt_is_Some_2 (Task.heap st.1) task) as [t Ht].
  { by apply (System.registry_allocated _ Hst). }
  exists t. split; [done|].
  rewrite (get_result_submitted _ _ _ _ Hst Hin Ht).
  destruct (Task._finish_event t) eqn:Hfin; simpl; [|by destruct wait].
  destruct (error_assigned_run_calls calls
              (w0, Master.__init__ use_state_records)
              (consistent_init _ _)) with (r := task) (t := t) as [e He];
    try done.
  { intros r t' Hr. by apply elem_of_nil in Hr. }
  rewrite He. by destruct e.
Qed.

(** The backend reports a task as done before its output has arrived. *)
Lemma get_result_of_submitted_task_witness :
  let st :=
    System.run_calls
      [System.Submit_task (Task.ExeStr "jobs/sum.py") VNone (Some "a");
       System.Task_finished 0 None]
      (System.empty_world, Master.__init__ false) in
  (0 ∈ System.registry st) ∧
  Master.get_result (Some 0) true st = (st, Return (Some 0, VNone)).
Proof.
  intros st.
  assert (0 ∈ System.registry st) as Hin
    by (apply (bool_decide_unpack _); vm_compute; exact I).
  split; [done|].
  destruct (get_result_of_submitted_task System.empty_world false
              [System.Submit_task (Task.ExeStr "jobs/sum.py") VNone (Some "a");
               System.Task_finished 0 None] 0 true Hin) as (t & Ht & Hrun).
  fold st in Ht, Hrun. rewrite Hrun.
  assert (t = Task.set_finish_event
                (Task.set_error None
                   (System.fresh_task "a" (Task.ExeStr "jobs/sum.py") VNone "tasks")))
    as -> by (vm_compute in Ht; by injection Ht).
  reflexivity.
Defined.

(** X12. A Master without state records makes a new task at every
    submission that the constructor of the task accepts, whatever the name:
    the task is new on the heap, unfinished, and goes to the end of the
    registry and of the queue of the scheduler. *)
Theorem submit_task_enlists_new_task (w0 : Task.World)
    (calls : list System.call) (executable_ : Task.executable)
    (input_data : value) (new_task_name : option string) :
  let st := System.run_calls calls (w0, Master.__init__ false) in
  let task_name := System.chosen_name executable_ new_task_name st.2 in
  let t :=
    System.fresh_task task_name executable_ input_data
      (Master._task_dir_name st.2) in
  (∀ repr, executable_ ≠ Task.ExeOther repr) →
  Task.creatable st.1 (Task._input_arg t) = true →
  ∃ st',
    Master.submit_task executable_ input_data new_task_name st =
      (st', Return (length (Task.heap st.1))) ∧
    Task.heap st'.1 = Task.heap st.1 ++ [t] ∧
    System.registry st' = System.registry st ++ [length (Task.heap st.1)] ∧
    SyncList._list (Master._queued_tasks st'.2) =
      SyncList._list (Master._queued_tasks st.2) ++ [Some (length (Task.heap st.1))] ∧
    System.registry_names st' = System.registry_names st ++ [task_name].
Proof.
  intros st task_name t Hexe Hpath.
  assert (System.consistent st) as Hst
    by apply consistent_run_calls, consistent_init.
  assert (Master._use_state_records st.2 = false) as Huse.
  { subst st. by rewrite use_state_records_run_calls by apply consistent_init. }
  rewrite submit_task_run. destruct st as [w m] eqn:E. cbn [fst snd] in *.
  pose proof (consistent_counted w m new_task_name Hst) as Hst'.
  rewrite submit_named_run by done. cbn [fst snd].
  assert (Master._use_state_records (System.counted new_task_name m) = false)
    as -> by (unfold System.counted; by destruct (negb _)).
  assert (Master._task_dir_name (System.counted new_task_name m) =
          Master._task_dir_name m) as Hdir
    by (unfold System.counted; by destruct (negb _)).
  rewrite Hdir. fold task_name. fold t.
  destruct executable_ as [exe|repr|repr]; [| |by destruct (Hexe repr)].
  all: cbn zeta; fold t; rewrite Hpath.
  all: eexists; split; [reflexivity|]; cbn [fst snd].
  all: split; [done|]; split;
         [unfold System.registry, System.counted; by destruct (negb _)|].
  all: split; [unfold System.counted; by destruct (negb _)|].
  all: rewrite registry_names_enlisted by done.
  all: unfold System.registry_names, System.registry, System.counted.
  all: by destruct (negb _).
Qed.

(** The same script is submitted twice under one name. *)
Lemma submit_task_enlists_new_task_witness :
  let calls := [System.Submit_task (Task.ExeStr "jobs/sum.py") VNone (Some "a")] in
  let st := System.run_calls calls (System.empty_world, Master.__init__ false) in
  let t := System.fresh_task "a" (Task.ExeStr "jobs/sum.py") VNone "tasks" in
  ((∀ repr, Task.ExeStr "jobs/sum.py" ≠ Task.ExeOther repr) ∧
   Task.creatable st.1 (Task._input_arg t) = true) ∧
  ∃ st',
    Master.submit_task (Task.ExeStr "jobs/sum.py") VNone (Some "a") st =
      (st', Return 1) ∧
    Task.heap st'.1 = Task.heap st.1 ++ [t] ∧
    System.registry st' = System.registry st ++ [1] ∧
    SyncList._list (Master._queued_tasks st'.2) =
      SyncList._list (Master._queued_tasks st.2) ++ [Some 1] ∧
    System.registry_names st' = System.registry_names st ++ ["a"].
Proof.
  intros calls st t.
  assert (∀ repr, Task.ExeStr "jobs/sum.py" ≠ Task.ExeOther repr) as Hexe
    by discriminate.
  assert (Task.creatable st.1 (Task._input_arg t) = true) as Hpath
    by reflexivity.
  split; [exact (conj Hexe Hpath)|].
  exact (submit_task_enlists_new_task System.empty_world calls
           (Task.ExeStr "jobs/sum.py") VNone (Some "a") Hexe Hpath).
Defined.

(** ** The Condor backend *)

Section CondorMore.
Import Task Condor.
Implicit Types (st : Condor.state) (w : World) (task : nat).

Lemma slash_free_tail c s : slash_free (String c s) → slash_free s.
Proof. intros H a b ->. by apply (H (String c a) b). Qed.

Lemma split_slash_free s : slash_free s → split slash s = [s].
Proof.
  induction s as [|c s IH]; intros H; simpl; [done|].
  destruct (Ascii.eqb_spec c slash) as [->|_].
  - by destruct (H "" s).
  - by rewrite IH by by eapply slash_free_tail.
Qed.

End CondorMore.

(** X13. [execute_task] of the Condor backend raises before it has removed
    or written any file when the executable of the task is a function, or a
    script name without a directory part, of which [split('/')[1]] does not
    exist: the world and the backend stay as they were, and the task is
    neither finished nor polled for. *)
Theorem execute_task_needs_script_in_directory (st : Condor.state)
    (task : nat) (worker : unit) (t : Task.PyMW_Task) :
  Task.heap st.1 !! task = Some t →
  (match Task._executable t with
   | Task.ExeStr exe => Condor.slash_free exe
   | _ => True
   end) →
  Condor.execute_task task worker st =
    (st, Raise match Task._executable t with
               | Task.ExeStr _ => IndexError "list index out of range"
               | _ => TypeError "expected a character buffer object"
               end).
Proof.
  intros Ht Hexe. destruct st as [w c]. cbn [fst] in Ht.
  unfold Condor.execute_task, Condor.prepare_submission.
  unfold bind at 1. unfold bind at 1. unfold bind at 1.
  unfold get, ret at 1. cbn [snd].
  unfold bind at 1. rewrite (on_fst_eq (Task.deref task)).
  rewrite (deref_Some _ _ _ Ht). cbn [fst snd].
  unfold bind at 1. unfold bind at 1. unfold get, ret at 1. cbn [fst].
  destruct (Task._executable t) as [exe|repr|repr]; [|done..].
  by rewrite (split_slash_free exe Hexe).
Qed.

(** A script in the working directory is submitted through the Master. *)
Lemma execute_task_needs_script_in_directory_witness :
  let w :=
    (System.run_calls
       [System.Submit_task (Task.ExeStr "sum.py") VNone (Some "a")]
       (System.empty_world, Master.__init__ false)).1 in
  let st := (w, Condor.__init__ "linux2" "" "") in
  let t := System.fresh_task "a" (Task.ExeStr "sum.py") VNone "tasks" in
  (Task.heap st.1 !! 0 = Some t ∧ Condor.slash_free "sum.py") ∧
  Condor.execute_task 0 tt st = (st, Raise (IndexError "list index out of range")).
Proof.
  intros w st t.
  assert (Task.heap st.1 !! 0 = Some t) as Ht by reflexivity.
  assert (Condor.slash_free "sum.py") as Hexe.
  { intros a b H.
    repeat (destruct a as [|? a]; [discriminate H|injection H as _ H]).
    by destruct a. }
  split; [exact (conj Ht Hexe)|].
  exact (execute_task_needs_script_in_directory st 0 tt t Ht Hexe).
Defined.



(** X18. What [pymw_master_write] has written, [pymw_master_read] reads
    back: the object itself, whatever the file held before, and no other
    file is touched. *)
Theorem master_read_returns_what_was_written (w : Task.World)
    (output : value) (loc : string) :
  Task.creatable w loc = true →
  ∃ w',
    Condor.pymw_master_write output loc w = (w', Return tt) ∧
    Condor.pymw_master_read loc w' = (w', Return output) ∧
    Task.heap w' = Task.heap w ∧
    ∀ other, other ≠ loc → Task.files w' !! other = Task.files w !! other.
Proof.
  intros Hloc. unfold Condor.pymw_master_write, Condor.pymw_master_read,
    Task.pickle_to, Task.unpickle_from. rewrite Hloc.
  eexists. split; [reflexivity|]. simpl. rewrite lookup_insert_eq.
  split; [done|]. split; [done|].
  intros other Hother. by rewrite lookup_insert_ne.
Qed.

(** An output cut short is overwritten by a whole one. *)
Lemma master_read_returns_what_was_written_witness :
  let w :=
    Task.set_files {["tasks/out_a.dat" := Task.Text ""]} System.empty_world in
  Task.creatable w "tasks/out_a.dat" = true ∧
  Condor.pymw_master_read "tasks/out_a.dat" w = (w, Raise (EOFError "")) ∧
  ∃ w',
    Condor.pymw_master_write (VInt 6) "tasks/out_a.dat" w = (w', Return tt) ∧
    Condor.pymw_master_read "tasks/out_a.dat" w' = (w', Return (VInt 6)).
Proof.
  intros w.
  assert (Task.creatable w "tasks/out_a.dat" = true) as Hloc by reflexivity.
  split; [done|]. split; [vm_compute; reflexivity|].
  destruct (master_read_returns_what_was_written w (VInt 6) "tasks/out_a.dat" Hloc)
    as (w' & Hwrite & Hread & _).
  by exists w'.
Defined.

(** ** The genetic algorithm of the example *)

Section GeneticAlgFacts.
Import GeneticAlg.

Lemma foldl_add_sum (x : Z) (l : list Z) :
  foldl Z.add x l = (x + foldr Z.add 0 l)%Z.
Proof.
  revert x. induction l as [|y l IH]; intros x; simpl; [lia|].
  rewrite IH. lia.
Qed.

Lemma fitness_func_sum (ind : list Z) :
  ind ≠ [] → fitness_func ind = Return (foldr Z.add 0%Z ind).
Proof.
  destruct ind as [|x l]; [done|]. intros _. simpl. by rewrite foldl_add_sum.
Qed.

Lemma sum_take_drop (n : nat) (l : list Z) :
  (foldr Z.add 0 (take n l) + foldr Z.add 0 (drop n l) = foldr Z.add 0 l)%Z.
Proof.
  revert n. induction l as [|x l IH]; intros [|n]; simpl; try lia.
  specialize (IH n). lia.
Qed.

Lemma sum_app (l k : list Z) :
  (foldr Z.add 0 (l ++ k) = foldr Z.add 0 l + foldr Z.add 0 k)%Z.
Proof. induction l as [|x l IH]; simpl; lia. Qed.

End GeneticAlgFacts.

(** X16. [crossover] of two individuals of one length gives two children of
    that length which hold, gene for gene, what the parents held: together
    the children are a rearrangement of the parents, and the fitness of the
    children adds up to the fitness of the parents, wherever the cut point
    falls. *)
Theorem crossover_conserves_genes (cpt : nat) (ind1 ind2 : list Z) :
  length ind1 = length ind2 → ind1 ≠ [] →
  let '(new_ind1, new_ind2) := GeneticAlg.crossover cpt ind1 ind2 in
  length new_ind1 = length ind1 ∧ length new_ind2 = length ind2 ∧
  new_ind1 ++ new_ind2 ≡ₚ ind1 ++ ind2 ∧
  ∃ f1 f2 g1 g2,
    GeneticAlg.fitness_func ind1 = Return f1 ∧
    GeneticAlg.fitness_func ind2 = Return f2 ∧
    GeneticAlg.fitness_func new_ind1 = Return g1 ∧
    GeneticAlg.fitness_func new_ind2 = Return g2 ∧
    (g1 + g2 = f1 + f2)%Z.
Proof.
  intros Hlen Hne. unfold GeneticAlg.crossover. cbn zeta.
  assert (ind2 ≠ []) as Hne2 by (destruct ind1, ind2; done).
  assert (length (take cpt ind1 ++ drop cpt ind2) = length ind1) as Hl1.
  { rewrite length_app, length_take, length_drop. lia. }
  assert (length (take cpt ind2 ++ drop cpt ind1) = length ind2) as Hl2.
  { rewrite length_app, length_take, length_drop. lia. }
  split; [done|]. split; [done|]. split.
  - rewrite <- (take_drop cpt ind1) at 3. rewrite <- (take_drop cpt ind2) at 3.
    solve_Permutation.
  - eexists _, _, _, _.
    rewrite !fitness_func_sum; try done.
    + repeat split. rewrite !sum_app.
      pose proof (sum_take_drop cpt ind1). pose proof (sum_take_drop cpt ind2).
      lia.
    + intros H. rewrite H in Hl2. destruct ind2; done.
    + intros H. rewrite H in Hl1. destruct ind1; done.
Qed.

Lemma crossover_conserves_genes_witness :
  (length [1; 0; 1; 1]%Z = length [0; 0; 1; 0]%Z ∧ [1; 0; 1; 1]%Z ≠ []) ∧
  GeneticAlg.crossover 1 [1; 0; 1; 1]%Z [0; 0; 1; 0]%Z =
    ([1; 0; 1; 0]%Z, [0; 0; 1; 1]%Z) ∧
  [1; 0; 1; 0]%Z ++ [0; 0; 1; 1]%Z ≡ₚ [1; 0; 1; 1]%Z ++ [0; 0; 1; 0]%Z.
Proof.
  assert (length [1; 0; 1; 1]%Z = length [0; 0; 1; 0]%Z) as Hlen by reflexivity.
  assert ([1; 0; 1; 1]%Z ≠ []) as Hne by discriminate.
  split; [exact (conj Hlen Hne)|]. split; [reflexivity|].
  exact (proj1 (proj2 (proj2
           (crossover_conserves_genes 1 [1; 0; 1; 1]%Z [0; 0; 1; 0]%Z Hlen Hne)))).
Defined.

(** X17. [mutate] keeps the length of an individual and keeps genes that
    are 0 or 1 that way; it changes nothing when no draw falls below the
    mutation rate, and the same draws applied twice give the individual
    back. *)
Theorem mutate_flips_bits (ind : list Z) (draws : list bool) :
  length (GeneticAlg.mutate ind draws) = length ind ∧
  (Forall (λ x, x = 0 ∨ x = 1)%Z ind →
   Forall (λ x, x = 0 ∨ x = 1)%Z (GeneticAlg.mutate ind draws)) ∧
  (Forall (λ d, d = false) draws → GeneticAlg.mutate ind draws = ind) ∧
  GeneticAlg.mutate (GeneticAlg.mutate ind draws) draws = ind.
Proof.
  revert draws. induction ind as [|x ind IH]; intros [|d draws]; simpl;
    try (by repeat split).
  destruct (IH draws) as (Hlen & Hbits & Hnone & Htwice).
  split; [by rewrite Hlen|]. split; [|split].
  - intros [Hx Hind]%Forall_cons. constructor; [|by apply Hbits].
    destruct d; lia.
  - intros [-> Hd]%Forall_cons. by rewrite Hnone.
  - rewrite Htwice. f_equal. destruct d; lia.
Qed.
